(** * AddTextLabel: a shallow embedding of [text_label_node.py]

    The node draws a translucent rounded box behind opaque text on every
    image of a batch.  The Python module is embedded function by function:
    Python [int]s are [Z], Python [float]s (binary64) are exact rationals
    [Q] (every value the module computes with them is an integer or a half
    integer, on which binary64 is exact below 2^52), [torch]/[numpy]
    [float32] elements are [spec_float]s at precision 24, [uint8] elements
    are [byte]s, and a call that may raise returns an [option].

    Pillow, numpy and torch are not part of the module.  What the module
    needs from the font engine, from Pillow's rasteriser and from the
    platform is collected in the interface [Libs]; the few facts about them
    that a theorem relies on are hypotheses of that theorem, and the
    instance [Ref.libs] shows that they can be met.

    The module is embedded twice: as functions on values (first part), on
    which most properties are stated, and as a program on a store of
    objects with sharing ([Store]), on which the absence of side effects is
    stated.  [StoreRun.store_add_label_computes] relates the two. *)

From Stdlib Require Import ZArith QArith Lia String Ascii.
From Stdlib Require Import Strings.Byte.
From Stdlib Require Import Floats.SpecFloat.
From stdpp Require Import base list.

Local Open Scope Z_scope.

(** ** Machine numbers *)

(** [uint8]: a byte, read as a number in [0, 255]. *)
Definition u8 : Type := byte.

Definition u8_to_Z (b : u8) : Z := Z.of_N (Byte.to_N b).

(** Storing an integer in a [uint8] keeps its low eight bits. *)
Definition u8_of_Z (z : Z) : u8 :=
  match Byte.of_N (Z.to_N (z mod 256)) with
  | Some b => b
  | None => x00
  end.

(** Pillow's CLIP8: saturate an integer into a byte. *)
Definition clip8 (z : Z) : u8 := u8_of_Z (Z.max 0 (Z.min 255 z)).

(** Python's [int(x)] on a float: truncation toward zero. *)
Definition py_int (q : Q) : Z := Z.quot (Qnum q) (Z.pos (Qden q)).

(** [float32], as numpy and torch store it. *)
Definition f32 : Type := spec_float.
Definition prec32 : Z := 24.
Definition emax32 : Z := 128.

Definition f32_of_Z (z : Z) : f32 := binary_normalize prec32 emax32 z 0 false.
Definition f32_mul : f32 -> f32 -> f32 := SFmul prec32 emax32.
Definition f32_div : f32 -> f32 -> f32 := SFdiv prec32 emax32.
Definition f32_leb : f32 -> f32 -> bool := SFleb.
Definition f32_ltb : f32 -> f32 -> bool := SFltb.

Definition f32_is_nan (x : f32) : bool :=
  match x with S754_nan => true | _ => false end.

(** [t.clamp(0, 1)] on one element: NaN stays NaN, everything else is
    moved into [0, 1]. *)
Definition f32_clamp01 (x : f32) : f32 :=
  if f32_is_nan x then x
  else if f32_ltb x (f32_of_Z 0) then f32_of_Z 0
  else if f32_ltb (f32_of_Z 1) x then f32_of_Z 1
  else x.

(** [0 <= v <= 1] on float32. *)
Definition in_unit (v : f32) : bool :=
  f32_leb (f32_of_Z 0) v && f32_leb v (f32_of_Z 1).

(** Round [m / 2^k] to the nearest integer, ties to the even one. *)
Definition round_half_even (m : Z) (k : Z) : Z :=
  let d := 2 ^ k in
  let q := m / d in
  let r := m mod d in
  match 2 * r ?= d with
  | Lt => q
  | Gt => q + 1
  | Eq => if Z.even q then q else q + 1
  end.

(** [numpy.round] on one element (rint, ties to even).  The result is again
    a float; it is integer valued when [x] is finite. *)
Definition f32_round (x : f32) : f32 :=
  match x with
  | S754_finite s m e =>
      if 0 <=? e then x
      else
        let n := round_half_even (Z.pos m) (- e) in
        binary_normalize prec32 emax32 (if s then - n else n) 0 s
  | _ => x
  end.

(** The integer part of a finite float (C's float-to-integer conversion). *)
Definition f32_trunc (x : f32) : option Z :=
  match x with
  | S754_zero _ => Some 0
  | S754_finite s m e =>
      let a := if 0 <=? e then Z.pos m * 2 ^ e else Z.pos m / 2 ^ (- e) in
      Some (if s then - a else a)
  | _ => None
  end.

(** ** Colours *)

Definition rgb : Type := u8 * u8 * u8.
Definition rgba : Type := u8 * u8 * u8 * u8.

Definition is_space (c : ascii) : bool :=
  let n := N_of_ascii c in
  ((9 <=? n) && (n <=? 13) || (28 <=? n) && (n <=? 32))%N.

Definition hex_digit (c : ascii) : option Z :=
  let n := Z.of_N (N_of_ascii c) in
  if (48 <=? n) && (n <=? 57) then Some (n - 48)
  else if (65 <=? n) && (n <=? 70) then Some (n - 55)
  else if (97 <=? n) && (n <=? 102) then Some (n - 87)
  else None.

(** [int(s, 16)] on a string of exactly two characters: two hex digits, or
    one hex digit with a sign in front or white space on either side.
    [None] stands for [ValueError]. *)
Definition int16_pair (c1 c2 : ascii) : option Z :=
  match hex_digit c1, hex_digit c2 with
  | Some d1, Some d2 => Some (16 * d1 + d2)
  | None, Some d2 =>
      if Ascii.eqb c1 "+" then Some d2
      else if Ascii.eqb c1 "-" then Some (- d2)
      else if is_space c1 then Some d2
      else None
  | Some d1, None => if is_space c2 then Some d1 else None
  | None, None => None
  end.

Fixpoint lstrip_space (s : string) : string :=
  match s with
  | String c s' => if is_space c then lstrip_space s' else s
  | EmptyString => s
  end.

Fixpoint rstrip_space (s : string) : string :=
  match s with
  | String c s' =>
      match rstrip_space s' with
      | EmptyString => if is_space c then EmptyString else String c EmptyString
      | t => String c t
      end
  | EmptyString => s
  end.

(** [s.strip()] *)
Definition strip (s : string) : string := rstrip_space (lstrip_space s).

(** [s.lstrip("#")] *)
Fixpoint lstrip_hash (s : string) : string :=
  match s with
  | String c s' => if Ascii.eqb c "#" then lstrip_hash s' else s
  | EmptyString => s
  end.

(** [_rgba(hexstr, alpha)] *)
Definition _rgba (hexstr : string) (alpha : Q) : option (Z * Z * Z * Z) :=
  let s := lstrip_hash (strip hexstr) in
  let a := Z.max 0 (Z.min 255 (py_int (alpha * 255))) in
  match s with
  | String c1 (String c2 (String c3 EmptyString)) =>
      match int16_pair c1 c1, int16_pair c2 c2, int16_pair c3 c3 with
      | Some r, Some g, Some b => Some (r, g, b, a)
      | _, _, _ => None
      end
  | String c1 (String c2 (String c3 (String c4 (String c5 (String c6 EmptyString))))) =>
      match int16_pair c1 c2, int16_pair c3 c4, int16_pair c5 c6 with
      | Some r, Some g, Some b => Some (r, g, b, a)
      | _, _, _ => None
      end
  | _ => Some (255, 255, 255, a)
  end.

(** ** Box placement *)

(** [_place_xy(w, h, bw, bh, placement, edge)]; [//] is floor division. *)
Definition _place_xy (w h bw bh : Z) (placement : string) (edge : Z) : Z * Z :=
  if String.eqb placement "top_left" then (edge, edge)
  else if String.eqb placement "top_right" then (w - bw - edge, edge)
  else if String.eqb placement "bottom_left" then (edge, h - bh - edge)
  else if String.eqb placement "bottom_right" then (w - bw - edge, h - bh - edge)
  else ((w - bw) / 2, (h - bh) / 2).

(** ** Images and tensors *)

(** A pixel buffer with its shape: [pixels] is row major, pixel [(x, y)]
    sits at index [y * width + x].  Both a numpy array of shape (H, W, C)
    and a Pillow image are such a buffer. *)
Record image (A : Type) : Type :=
  Image { width : nat; height : nat; pixels : list A }.
Arguments Image {A} _ _ _.
Arguments width {A} _.
Arguments height {A} _.
Arguments pixels {A} _.

Definition image_wf {A : Type} (im : image A) : Prop :=
  length (pixels im) = (height im * width im)%nat.

(** One float32 pixel of a host image: three channels. *)
Definition fpx : Type := f32 * f32 * f32.

(** A 4-dimensional tensor of shape (N, H, W, 3): N buffers of one shape. *)
Record batch : Type :=
  Batch { batch_height : nat; batch_width : nat; batch_images : list (list fpx) }.

(** What the host may pass as [image]: a batch, or one bare image. *)
Inductive tensor : Type :=
| Tensor3 (im : image fpx)
| Tensor4 (b : batch).

(** [image.unsqueeze(0)] on a 3-dimensional tensor. *)
Definition unsqueeze0 (im : image fpx) : batch :=
  Batch (height im) (width im) [pixels im].

(** The 4-dimensional tensor the loop runs over. *)
Definition as_batch (v : tensor) : batch :=
  match v with
  | Tensor3 im => unsqueeze0 im
  | Tensor4 b => b
  end.


(** [image[i]] for every [i] in [range(image.shape[0])], in order. *)
Definition batch_items (b : batch) : list (image fpx) :=
  map (Image (batch_width b) (batch_height b)) (batch_images b).

(** [torch.stack(out, dim=0)]: refuses an empty list and tensors of
    different shapes ([None] stands for [RuntimeError]). *)
Definition torch_stack (out : list (image fpx)) : option batch :=
  match out with
  | [] => None
  | im :: _ =>
      if forallb (fun im' => Nat.eqb (width im') (width im)
                             && Nat.eqb (height im') (height im)) out
      then Some (Batch (height im) (width im) (map pixels out))
      else None
  end.

Definition pmap {A B : Type} (f : A -> B) (im : image A) : image B :=
  Image (width im) (height im) (map f (pixels im)).

(** Apply [f x y] to the pixel at column [x], row [y]. *)
Definition pmapi {A B : Type} (f : Z -> Z -> A -> B) (im : image A) : image B :=
  Image (width im) (height im)
        (imap (fun i p => f (Z.of_nat (i mod width im)) (Z.of_nat (i / width im)) p)
              (pixels im)).

(** The pixel at column [x], row [y], when there is one. *)
Definition pixel_at {A : Type} (im : image A) (x y : nat) : option A :=
  if (x <? width im)%nat then pixels im !! (y * width im + x)%nat else None.

(** ** The libraries under the node

    The font engine, Pillow's rasteriser and the platform, as far as the
    module calls them. *)
Record Libs : Type := {
  font : Type;
  (** [ImageFont.truetype(path, size)]; [None] when it raises. *)
  truetype : string -> Z -> option font;
  (** [ImageFont.load_default()] *)
  load_default : font;
  (** [platform.system()] and [os.path.expanduser("~")] *)
  platform_system : string;
  home_dir : string;
  (** [draw.textbbox((0, 0), text, font=font)]: (left, top, right, bottom);
      [None] when it raises. *)
  textbbox : font -> string -> option (Z * Z * Z * Z);
  (** [draw.textlength(text, font=font)] and [font.size] *)
  textlength : font -> string -> Q;
  font_size : font -> Q;
  (** Glyph coverage of [text], 0..255, at an offset from the drawing
      origin. *)
  text_mask : font -> string -> Z -> Z -> u8;
  (** Does the rounded rectangle [x0 y0 x1 y1] of radius [r] cover pixel
      [(px, py)]? *)
  rr_cover : Z -> Z -> Z -> Z -> Z -> Z -> Z -> bool;
  (** [Image.alpha_composite] on one pixel: destination, then source. *)
  composite_px : rgba -> rgba -> rgba;
  (** Painting ink through a coverage mask on one pixel: destination, ink,
      coverage. *)
  paste_px : rgba -> rgba -> u8 -> rgba;
  (** What [astype(np.uint8)] makes of NaN (left open by C). *)
  nan_to_u8 : u8;
}.

(** ** Pixel conversions *)

Section Conversions.
Context (L : Libs).

(** [astype(np.uint8)] on one element. *)
Definition f32_to_u8 (x : f32) : u8 :=
  match f32_trunc x with
  | Some z => u8_of_Z z
  | None => nan_to_u8 L
  end.

(** One element of
    [(t.clamp(0, 1).cpu().numpy() * 255.0).round().astype(np.uint8)]. *)
Definition quantize (x : f32) : u8 :=
  f32_to_u8 (f32_round (f32_mul (f32_clamp01 x) (f32_of_Z 255))).

(** [_tensor_to_pil(t)]: an RGB image of the same shape. *)
Definition _tensor_to_pil (t : image fpx) : image rgb :=
  pmap (fun '(r, g, b) => (quantize r, quantize g, quantize b)) t.
End Conversions.

(** One element of [np.array(im).astype(np.float32) / 255.0]. *)
Definition dequantize (b : u8) : f32 :=
  f32_div (f32_of_Z (u8_to_Z b)) (f32_of_Z 255).

(** [_pil_to_tensor(im)] *)
Definition _pil_to_tensor (im : image rgb) : image fpx :=
  pmap (fun '(r, g, b) => (dequantize r, dequantize g, dequantize b)) im.

(** [im.convert("RGBA")] on an RGB image: opaque alpha. *)
Definition convert_RGBA (im : image rgb) : image rgba :=
  pmap (fun '(r, g, b) => (r, g, b, xff)) im.

(** [im.convert("RGB")] on an RGBA image: the alpha band is dropped. *)
Definition convert_RGB (im : image rgba) : image rgb :=
  pmap (fun '(r, g, b, _) => (r, g, b)) im.

(** [Image.new("RGBA", size, colour)] *)
Definition Image_new (w h : nat) (c : rgba) : image rgba :=
  Image w h (replicate (h * w) c).

(** A colour tuple handed to Pillow as [fill]: each entry saturates into a
    byte. *)
Definition ink (c : Z * Z * Z * Z) : rgba :=
  let '(r, g, b, a) := c in (clip8 r, clip8 g, clip8 b, clip8 a).

(** ** Fonts *)

Definition lower_ascii (c : ascii) : ascii :=
  let n := N_of_ascii c in
  if ((65 <=? n) && (n <=? 90))%N then ascii_of_N (n + 32) else c.

(** [s.lower()] *)
Fixpoint lower (s : string) : string :=
  match s with
  | EmptyString => EmptyString
  | String c s' => String (lower_ascii c) (lower s')
  end.

Fixpoint ends_with_slash (s : string) : bool :=
  match s with
  | EmptyString => false
  | String c EmptyString => Ascii.eqb c "/"
  | String _ s' => ends_with_slash s'
  end.

Definition starts_with_slash (s : string) : bool :=
  match s with
  | String c _ => Ascii.eqb c "/"
  | EmptyString => false
  end.

(** [os.path.join(a, b)] on a POSIX system. *)
Definition path_join2 (a b : string) : string :=
  if starts_with_slash b then b
  else if (String.eqb a "" || ends_with_slash a)%bool then (a ++ b)%string
  else (a ++ "/" ++ b)%string.

(** [os.path.join(a, *parts)] *)
Definition path_join (a : string) (parts : list string) : string :=
  fold_left path_join2 parts a.

Section Fonts.
Context (L : Libs).

(** [_font_candidates(fam)] *)
Definition _font_candidates (fam : string) : list string :=
  let c := [] in
  let c :=
    if String.eqb fam "Arial" then
      c ++ ["Arial.ttf"; "arial.ttf"; "/Library/Fonts/Arial.ttf";
            "C:\Windows\Fonts\arial.ttf";
            "/usr/share/fonts/truetype/msttcorefonts/Arial.ttf"]%string
    else if String.eqb fam "Monospace" then
      c ++ ["DejaVuSansMono.ttf";
            "/usr/share/fonts/truetype/dejavu/DejaVuSansMono.ttf";
            "/Library/Fonts/Menlo.ttc";
            "C:\Windows\Fonts\consola.ttf"]%string
    else c in
  if String.eqb (lower (platform_system L)) "linux" then
    let home := home_dir L in
    c ++ [path_join home [".fonts"; "DejaVuSansMono.ttf"]%string;
          path_join home [".local"; "share"; "fonts"; "DejaVuSansMono.ttf"]%string]
  else c.

(** The loop of [_load_font]: the first path that loads wins, the
    built-in font is what remains when the paths are used up. *)
Fixpoint try_fonts (paths : list string) (size : Z) : font L :=
  match paths with
  | [] => load_default L
  | p :: rest =>
      match truetype L p size with
      | Some f => f
      | None => try_fonts rest size
      end
  end.

(** [_load_font(fam, size)] *)
Definition _load_font (fam : string) (size : Z) : font L :=
  try_fonts (_font_candidates fam) size.

(** [_text_bbox(draw, text, font)]: (l, t, r, b) *)
Definition _text_bbox (text : string) (f : font L) : Z * Z * Z * Z :=
  match textbbox L f text with
  | Some bb => bb
  | None =>
      let w := py_int (textlength L f text) in
      let h := py_int (font_size L f) in
      (0, 0, w, h)
  end.
End Fonts.

(** ** Label geometry *)

(** The numbers [add_label] computes for one image before it draws. *)
Record layout : Type := Layout {
  box_w : Z; box_h : Z;        (* size of the box *)
  box_x : Z; box_y : Z;        (* its top-left corner *)
  radius : Z;                  (* corner radius handed to Pillow *)
  text_x : Z; text_y : Z;      (* origin handed to [draw.text] *)
}.

(** Lines 118-137 of [add_label] without the drawing calls: [W], [H] are
    [base.width], [base.height] and [bbox] is the measured text box. *)
Definition label_layout (W H : Z) (bbox : Z * Z * Z * Z) (placement : string)
    (edge_offset padding corner_radius : Z) : layout :=
  let '(l, t, r, b) := bbox in
  let tw := r - l in
  let th := b - t in
  let pad := padding in
  let bw := tw + pad * 2 in
  let bh := th + pad * 2 in
  let '(x, y) := _place_xy W H bw bh placement edge_offset in
  let rx := Z.max 0 (Z.min corner_radius (Z.min bw bh / 2)) in
  let cx := (inject_Z x + inject_Z bw / 2)%Q in
  let cy := (inject_Z y + inject_Z bh / 2)%Q in
  let tx := py_int (cx - inject_Z tw / 2 - inject_Z l)%Q in
  let ty := py_int (cy - inject_Z th / 2 - inject_Z t)%Q in
  Layout bw bh x y rx tx ty.

(** The four numbers handed to [rounded_rectangle]: [x, y, x + box_w,
    y + box_h]. *)
Definition box_rect (g : layout) : Z * Z * Z * Z :=
  (box_x g, box_y g, box_x g + box_w g, box_y g + box_h g).

(** ** Drawing *)

Section Drawing.
Context (L : Libs).

(** [ImageDraw.Draw(im, "RGBA").rounded_rectangle(rect, radius, fill)] on
    an RGBA image: covered pixels take the fill, alpha included. *)
Definition rounded_rectangle (im : image rgba) (rect : Z * Z * Z * Z)
    (r : Z) (fill : rgba) : image rgba :=
  let '(x0, y0, x1, y1) := rect in
  pmapi (fun px py p => if rr_cover L x0 y0 x1 y1 r px py then fill else p) im.

(** [Image.alpha_composite(dst, src)]; [None] stands for the
    [ValueError] raised when the sizes differ. *)
Definition alpha_composite (dst src : image rgba) : option (image rgba) :=
  if (Nat.eqb (width dst) (width src) && Nat.eqb (height dst) (height src))%bool
  then Some (Image (width dst) (height dst)
                   (zip_with (composite_px L) (pixels dst) (pixels src)))
  else None.

(** [ImageDraw.Draw(im, "RGBA").text((tx, ty), text, font, fill)] on an
    RGBA image: the ink goes through the glyph coverage. *)
Definition draw_text (im : image rgba) (tx ty : Z) (text : string)
    (f : font L) (fill : rgba) : image rgba :=
  pmapi (fun px py p => paste_px L p fill (text_mask L f text (px - tx) (py - ty))) im.

(** The colours of a scheme: (text, box). *)
Definition scheme_colours (color_scheme : string) : string * string :=
  if String.eqb color_scheme "white_on_black"
  then ("#FFFFFF", "#000000")%string
  else ("#000000", "#FFFFFF")%string.

(** The layout [add_label] computes for the image [t]. *)
Definition image_layout (f : font L) (text placement : string)
    (edge_offset padding corner_radius : Z) (t : image fpx) : layout :=
  label_layout (Z.of_nat (width t)) (Z.of_nat (height t))
               (_text_bbox L text f) placement edge_offset padding corner_radius.

(** The box layer: a transparent image of the base's size with the box
    drawn on it. *)
Definition box_overlay (w h : nat) (g : layout) (fill : rgba) : image rgba :=
  rounded_rectangle (Image_new w h (x00, x00, x00, x00)) (box_rect g) (radius g) fill.

(** The body of the loop of [add_label], up to the last drawing call. *)
Definition label_image (f : font L) (text placement : string)
    (edge_offset padding corner_radius : Z) (text_col bg_col : string)
    (t : image fpx) : option (image rgba) :=
  let base := convert_RGBA (_tensor_to_pil L t) in
  let g := label_layout (Z.of_nat (width base)) (Z.of_nat (height base))
                        (_text_bbox L text f) placement
                        edge_offset padding corner_radius in
  bg ← _rgba bg_col (1 # 2);
  let overlay := box_overlay (width base) (height base) g (ink bg) in
  base ← alpha_composite base overlay;
  fg ← _rgba text_col 1;
  Some (draw_text base (text_x g) (text_y g) text f (ink fg)).

(** One turn of the loop: the labelled image as a tensor. *)
Definition render_image (f : font L) (text placement : string)
    (edge_offset padding corner_radius : Z) (text_col bg_col : string)
    (t : image fpx) : option (image fpx) :=
  base ← label_image f text placement edge_offset padding corner_radius
                     text_col bg_col t;
  Some (_pil_to_tensor (convert_RGB base)).

(** [add_label] once the font is known. *)
Definition add_label_with (f : font L) (image : tensor) (text placement : string)
    (edge_offset : Z) (color_scheme : string) (padding corner_radius : Z)
    : option batch :=
  let image := match image with
               | Tensor3 im => unsqueeze0 im
               | Tensor4 b => b
               end in
  let '(text_col, bg_col) := scheme_colours color_scheme in
  out ← mapM (render_image f text placement edge_offset padding corner_radius
                           text_col bg_col)
             (batch_items image);
  torch_stack out.

(** [AddTextLabel.add_label]; [None] stands for an exception that leaves
    the call. *)
Definition add_label (image : tensor) (text font_family : string)
    (font_size : Z) (placement : string) (edge_offset : Z)
    (color_scheme : string) (padding corner_radius : Z) : option batch :=
  add_label_with (_load_font L font_family font_size) image text placement
                 edge_offset color_scheme padding corner_radius.
End Drawing.

(** * The call on the object store

    Tensors, arrays and Pillow images are objects in a store; a Python
    variable holds a reference.  Views ([unsqueeze], indexing, [numpy()],
    [from_numpy]) share the object they come from; the two drawing calls
    write into the image they draw on; every other call makes a new
    object. *)

Module Store.

Definition loc : Type := nat.

Inductive obj : Type :=
| OFloat (b : batch)           (* float32 storage of shape (N, H, W, 3) *)
| OBytes (a : image rgb)       (* uint8 array of shape (H, W, 3) *)
| ORGB (im : image rgb)        (* Pillow image, mode RGB *)
| ORGBA (im : image rgba).     (* Pillow image, mode RGBA *)

Definition store : Type := list obj.

(** How a tensor (or float array) looks at its storage: all of it, one
    image of it, or that one image as a batch of one. *)
Inductive view : Type :=
| Whole
| Item (i : nat)
| Single (i : nat).

Record tref : Type := TRef { t_loc : loc; t_view : view }.

(** A computation on the store that may raise. *)
Definition M (A : Type) : Type := store -> option (A * store).

#[global] Instance M_ret : MRet M := fun A a s => Some (a, s).
#[global] Instance M_bind : MBind M := fun A B f m s =>
  match m s with
  | Some (a, s') => f a s'
  | None => None
  end.

Definition raise {A : Type} : M A := fun _ => None.

Definition lift {A : Type} (o : option A) : M A :=
  match o with
  | Some a => mret a
  | None => raise
  end.

(** A new object, at the next free location. *)
Definition alloc (o : obj) : M loc := fun s => Some (length s, s ++ [o]).

Definition load (l : loc) : M obj := fun s =>
  match s !! l with
  | Some o => Some (o, s)
  | None => None
  end.

(** Overwrite an object in place. *)
Definition put (l : loc) (o : obj) : M unit := fun s =>
  if (l <? length s)%nat then Some (tt, <[l := o]> s) else None.

Definition load_float (l : loc) : M batch :=
  o ← load l; match o with OFloat b => mret b | _ => raise end.
Definition load_bytes (l : loc) : M (image rgb) :=
  o ← load l; match o with OBytes a => mret a | _ => raise end.
Definition load_rgb (l : loc) : M (image rgb) :=
  o ← load l; match o with ORGB a => mret a | _ => raise end.
Definition load_rgba (l : loc) : M (image rgba) :=
  o ← load l; match o with ORGBA a => mret a | _ => raise end.

(** The image a 3-dimensional view shows. *)
Definition load_item (t : tref) : M (image fpx) :=
  b ← load_float (t_loc t);
  match t_view t with
  | Item i =>
      lift (Image (batch_width b) (batch_height b) <$> batch_images b !! i)
  | _ => raise
  end.

(** ** torch and numpy *)

(** [t.dim()] *)
Definition t_dim (t : tref) : nat :=
  match t_view t with Item _ => 3 | _ => 4 end.

(** [t.unsqueeze(0)] on a 3-dimensional tensor: a view. *)
Definition t_unsqueeze0 (t : tref) : tref :=
  match t_view t with
  | Item i => TRef (t_loc t) (Single i)
  | _ => t
  end.

(** [t.shape[0]] on a 4-dimensional tensor. *)
Definition t_shape0 (t : tref) : M nat :=
  b ← load_float (t_loc t);
  match t_view t with
  | Whole => mret (length (batch_images b))
  | Single _ => mret 1%nat
  | Item _ => raise
  end.

(** [t[i]] on a 4-dimensional tensor: a view of image [i]. *)
Definition t_index (t : tref) (i : nat) : tref :=
  match t_view t with
  | Single j => TRef (t_loc t) (Item (j + i))
  | _ => TRef (t_loc t) (Item i)
  end.

Definition fmap3 (f : f32 -> f32) (p : fpx) : fpx :=
  let '(r, g, b) := p in (f r, f g, f b).

(** An elementwise operation that returns a new float array. *)
Definition float_map (f : f32 -> f32) (t : tref) : M tref :=
  im ← load_item t;
  l ← alloc (OFloat (Batch (height im) (width im) [map (fmap3 f) (pixels im)]));
  mret (TRef l (Item 0)).

Definition t_clamp01 : tref -> M tref := float_map f32_clamp01.
Definition t_cpu (t : tref) : tref := t.
Definition t_numpy (t : tref) : tref := t.
Definition np_mul (c : f32) : tref -> M tref := float_map (fun x => f32_mul x c).
Definition np_div (c : f32) : tref -> M tref := float_map (fun x => f32_div x c).
Definition np_round : tref -> M tref := float_map f32_round.
Definition torch_from_numpy (a : tref) : tref := a.

Section WithLibs.
Context (L : Libs).

Definition u8_3 (p : fpx) : rgb :=
  let '(r, g, b) := p in (f32_to_u8 L r, f32_to_u8 L g, f32_to_u8 L b).

(** [a.astype(np.uint8)] *)
Definition np_astype_u8 (a : tref) : M loc :=
  im ← load_item a;
  alloc (OBytes (pmap u8_3 im)).

(** [a.astype(np.float32)] on a uint8 array. *)
Definition np_astype_f32 (a : loc) : M tref :=
  im ← load_bytes a;
  l ← alloc (OFloat (Batch (height im) (width im)
               [map (fun '(r, g, b) => (f32_of_Z (u8_to_Z r),
                                        f32_of_Z (u8_to_Z g),
                                        f32_of_Z (u8_to_Z b))) (pixels im)]));
  mret (TRef l (Item 0)).

(** [np.array(im)] on an RGB image. *)
Definition np_array (im : loc) : M loc :=
  a ← load_rgb im; alloc (OBytes a).

(** [Image.fromarray(a)] on a uint8 array of three channels. *)
Definition Image_fromarray (a : loc) : M loc :=
  im ← load_bytes a; alloc (ORGB im).

(** [_tensor_to_pil(t)] *)
Definition _tensor_to_pil (t : tref) : M loc :=
  c ← t_clamp01 t;
  m ← np_mul (f32_of_Z 255) (t_numpy (t_cpu c));
  r ← np_round m;
  arr ← np_astype_u8 r;
  Image_fromarray arr.

(** [_pil_to_tensor(im)] *)
Definition _pil_to_tensor (im : loc) : M tref :=
  a ← np_array im;
  fl ← np_astype_f32 a;
  d ← np_div (f32_of_Z 255) fl;
  mret (torch_from_numpy d).

(** ** Pillow *)

Definition im_convert_RGBA (im : loc) : M loc :=
  a ← load_rgb im; alloc (ORGBA (convert_RGBA a)).

Definition im_convert_RGB (im : loc) : M loc :=
  a ← load_rgba im; alloc (ORGB (convert_RGB a)).

(** [im.size] *)
Definition im_size (im : loc) : M (nat * nat) :=
  a ← load_rgba im; mret (width a, height a).

Definition im_new_RGBA (size : nat * nat) (c : rgba) : M loc :=
  alloc (ORGBA (Image_new size.1 size.2 c)).

(** [ImageDraw.Draw(im, "RGBA").rounded_rectangle(...)]: writes [im]. *)
Definition draw_rounded_rectangle (im : loc) (rect : Z * Z * Z * Z) (r : Z)
    (fill : rgba) : M unit :=
  a ← load_rgba im; put im (ORGBA (rounded_rectangle L a rect r fill)).

(** [ImageDraw.Draw(im, "RGBA").text(...)]: writes [im]. *)
Definition draw_text_on (im : loc) (tx ty : Z) (text : string) (f : font L)
    (fill : rgba) : M unit :=
  a ← load_rgba im; put im (ORGBA (draw_text L a tx ty text f fill)).

Definition im_alpha_composite (dst src : loc) : M loc :=
  a ← load_rgba dst; b ← load_rgba src;
  c ← lift (alpha_composite L a b);
  alloc (ORGBA c).

(** [torch.stack(out, dim=0)] *)
Definition t_stack (out : list tref) : M tref :=
  ims ← mapM load_item out;
  b ← lift (torch_stack ims);
  l ← alloc (OFloat b);
  mret (TRef l Whole).

(** ** The node *)

(** The body of the loop of [add_label] for [image[i]]. *)
Definition loop_body (f : font L) (text placement : string)
    (edge_offset padding corner_radius : Z) (text_col bg_col : string)
    (t : tref) : M tref :=
  pil ← _tensor_to_pil t;
  base ← im_convert_RGBA pil;
  let bbox := _text_bbox L text f in
  size ← im_size base;
  let g := label_layout (Z.of_nat size.1) (Z.of_nat size.2) bbox placement
                        edge_offset padding corner_radius in
  overlay ← im_new_RGBA size (x00, x00, x00, x00);
  bg ← lift (_rgba bg_col (1 # 2));
  _ ← draw_rounded_rectangle overlay (box_rect g) (radius g) (ink bg);
  base ← im_alpha_composite base overlay;
  fg ← lift (_rgba text_col 1);
  _ ← draw_text_on base (text_x g) (text_y g) text f (ink fg);
  rgbim ← im_convert_RGB base;
  _pil_to_tensor rgbim.

(** [AddTextLabel.add_label] *)
Definition add_label (image : tref) (text font_family : string)
    (font_size : Z) (placement : string) (edge_offset : Z)
    (color_scheme : string) (padding corner_radius : Z) : M tref :=
  let image := if Nat.eqb (t_dim image) 3 then t_unsqueeze0 image else image in
  let f := _load_font L font_family font_size in
  let '(text_col, bg_col) := scheme_colours color_scheme in
  n ← t_shape0 image;
  out ← mapM (fun i => loop_body f text placement edge_offset padding
                                 corner_radius text_col bg_col
                                 (t_index image i))
             (seq 0 n);
  t_stack out.
End WithLibs.

(** ** Reading the store *)


(** ** Frames *)

(** [m], started from any store that extends [s0], ends in a store that
    extends [s0], with a result that satisfies [P]. *)
Definition keeps (s0 : store) {A : Type} (P : A -> Prop) (m : M A) : Prop :=
  forall (s : store) (a : A) (s' : store),
    s0 `prefix_of` s -> m s = Some (a, s') -> s0 `prefix_of` s' /\ P a.

Definition any {A : Type} (_ : A) : Prop := True.

(** A location that did not exist in [s0]. *)
Definition new_loc (s0 : store) (l : loc) : Prop := (length s0 <= l)%nat.
Definition new_ref (s0 : store) (t : tref) : Prop := new_loc s0 (t_loc t).
End Store.

(** ** What the theorems ask of Pillow *)



(** Of painting through a mask: no coverage leaves the pixel, full
    coverage puts the ink. *)
Definition paste_contract (L : Libs) : Prop :=
  forall d i : rgba, paste_px L d i x00 = d /\ paste_px L d i xff = i.


(** ** A reference instance of the libraries

    A small font engine and rasteriser on which the node can be run:
    fixed-pitch block glyphs with a soft right edge, an exact rounded
    "over" operator, and a linear paste through the coverage mask. *)
Module Ref.

(** A font is its pixel size. *)
Definition font : Type := Z.

(** Only one font file is installed. *)
Definition truetype (path : string) (size : Z) : option font :=
  if String.eqb path "DejaVuSansMono.ttf" then Some size else None.

Definition load_default : font := 10.

Definition str_len (s : string) : Z := Z.of_nat (String.length s).

(** Glyph cells are [size / 2] wide and [size] tall; the ink starts one
    pixel right of and two pixels below the origin. *)
Definition textbbox (f : font) (text : string) : option (Z * Z * Z * Z) :=
  Some (1, 2, 1 + (f / 2) * str_len text, 2 + f).

Definition textlength (f : font) (text : string) : Q :=
  inject_Z ((f / 2) * str_len text).

Definition font_size (f : font) : Q := inject_Z f.

(** Full coverage inside the ink box, half coverage on its last column. *)
Definition text_mask (f : font) (text : string) (dx dy : Z) : u8 :=
  let r := 1 + (f / 2) * str_len text in
  if (1 <=? dx) && (dx <? r) && (2 <=? dy) && (dy <? 2 + f) then
    if dx =? r - 1 then x80 else xff
  else x00.

(** Both end points belong to the rectangle; a corner pixel is covered
    when it lies within [r] of the centre of the corner's circle. *)
Definition rr_cover (x0 y0 x1 y1 r px py : Z) : bool :=
  (x0 <=? px) && (px <=? x1) && (y0 <=? py) && (py <=? y1) &&
  (let dx := Z.max 0 (Z.max (x0 + r - px) (px - (x1 - r))) in
   let dy := Z.max 0 (Z.max (y0 + r - py) (py - (y1 - r))) in
   (dx =? 0) || (dy =? 0) || (dx * dx + dy * dy <=? r * r)).

(** Source over destination on one channel, rounded to nearest. *)
Definition over (sc sa dc da : Z) : Z :=
  let outa255 := sa * 255 + da * (255 - sa) in
  (sc * sa * 255 + dc * da * (255 - sa) + outa255 / 2) / outa255.

Definition composite_px (d s : rgba) : rgba :=
  let '(dr, dg, db, da) := d in
  let '(sr, sg, sb, sa) := s in
  let a := u8_to_Z sa in
  let b := u8_to_Z da in
  if a =? 0 then d
  else (u8_of_Z (over (u8_to_Z sr) a (u8_to_Z dr) b),
        u8_of_Z (over (u8_to_Z sg) a (u8_to_Z dg) b),
        u8_of_Z (over (u8_to_Z sb) a (u8_to_Z db) b),
        u8_of_Z ((a * 255 + b * (255 - a) + 127) / 255)).

(** Linear mix of destination and ink by the coverage, rounded. *)
Definition mix (d i m : Z) : Z := (d * (255 - m) + i * m + 127) / 255.

Definition paste_px (d i : rgba) (m : u8) : rgba :=
  let '(dr, dg, db, da) := d in
  let '(ir, ig, ib, ia) := i in
  let c := u8_to_Z m in
  (u8_of_Z (mix (u8_to_Z dr) (u8_to_Z ir) c),
   u8_of_Z (mix (u8_to_Z dg) (u8_to_Z ig) c),
   u8_of_Z (mix (u8_to_Z db) (u8_to_Z ib) c),
   u8_of_Z (mix (u8_to_Z da) (u8_to_Z ia) c)).

Definition libs : Libs :=
  Build_Libs font truetype load_default "Linux" "/root"
             textbbox textlength font_size text_mask
             rr_cover composite_px paste_px x00.

(** Float constants for test images. *)
Definition f0 : f32 := f32_of_Z 0.
Definition f1 : f32 := f32_of_Z 1.
Definition fhalf : f32 := f32_div (f32_of_Z 1) (f32_of_Z 2).

(** A solid image of [w] by [h] pixels. *)
Definition solid (w h : nat) (c : fpx) : image fpx :=
  Image w h (replicate (h * w) c).
End Ref.

(** A second instance: not a Linux system, no font file loads, and the
    text box cannot be measured. *)
Definition bare_libs : Libs :=
  Build_Libs Ref.font (fun _ _ => None) Ref.load_default "Windows" "C:\Users\me"
             (fun _ _ => None) Ref.textlength Ref.font_size Ref.text_mask
             Ref.rr_cover Ref.composite_px Ref.paste_px x00.

(** Of compositing, where the overlay is empty: a fully transparent source
    leaves the destination. *)
Definition composite_clear (L : Libs) : Prop :=
  forall d : rgba, composite_px L d (x00, x00, x00, x00) = d.

(** ** The node's interface

    [AddTextLabel.INPUT_TYPES()]: what the host offers for every input,
    and the keyword defaults of [add_label]. *)

Inductive input_spec : Type :=
| InImage                                            (* ("IMAGE",) *)
| InString (default : string) (multiline : bool)     (* ("STRING", {...}) *)
| InChoice (options : list string) (default : string)
| InInt (default min max step : Z).                  (* ("INT", {...}) *)

Definition INPUT_TYPES_required : list (string * input_spec) :=
  [("image", InImage);
   ("text", InString "YOUR TEXT" false)]%string.

Definition INPUT_TYPES_optional : list (string * input_spec) :=
  [("font_family", InChoice ["Arial"; "Monospace"] "Arial");
   ("font_size", InInt 30 6 256 1);
   ("placement", InChoice ["top_left"; "top_right"; "bottom_left";
                            "bottom_right"; "center"] "top_left");
   ("edge_offset", InInt 30 0 4096 1);
   ("color_scheme", InChoice ["white_on_black"; "black_on_white"]
                             "black_on_white");
   ("padding", InInt 15 0 256 1);
   ("corner_radius", InInt 15 0 128 1)]%string.

(** Looking an input up by name, as [d["optional"][name]] does. *)
Fixpoint lookup_input (name : string) (l : list (string * input_spec))
    : option input_spec :=
  match l with
  | [] => None
  | (k, v) :: rest => if String.eqb k name then Some v else lookup_input name rest
  end.

(** The host accepts [v] for the integer input [name]. *)
Definition int_in_range (name : string) (v : Z) : Prop :=
  match lookup_input name INPUT_TYPES_optional with
  | Some (InInt _ lo hi _) => lo <= v <= hi
  | _ => False
  end.

(** The host offers [v] for the choice input [name]. *)
Definition choice_offered (name : string) (v : string) : Prop :=
  match lookup_input name INPUT_TYPES_optional with
  | Some (InChoice options _) => In v options
  | _ => False
  end.

(** The keyword defaults in the signature of [add_label]. *)
Definition add_label_defaults : list (string * (string + Z)) :=
  [("font_family", inl "Arial"); ("font_size", inr 30);
   ("placement", inl "top_left"); ("edge_offset", inr 30);
   ("color_scheme", inl "black_on_white"); ("padding", inr 15);
   ("corner_radius", inr 15)]%string.

(** The default an input description carries. *)
Definition schema_default (sp : input_spec) : option (string + Z) :=
  match sp with
  | InImage => None
  | InString d _ => Some (inl d)
  | InChoice _ d => Some (inl d)
  | InInt d _ _ _ => Some (inr d)
  end.

(** A description whose default the host would itself accept: one of the
    choices, or within the range and on the step grid. *)
Definition default_admissible (sp : input_spec) : Prop :=
  match sp with
  | InImage | InString _ _ => True
  | InChoice options d => In d options
  | InInt d lo hi step => lo <= d <= hi /\ 0 < step /\ (d - lo) mod step = 0
  end.

(** * Properties *)

(** ** Bytes *)

Lemma u8_to_Z_range (b : u8) : 0 <= u8_to_Z b <= 255.
Proof.
  unfold u8_to_Z. pose proof (Byte.to_N_bounded b) as Hb. lia.
Qed.

Lemma u8_to_of_Z (z : Z) : 0 <= z <= 255 -> u8_to_Z (u8_of_Z z) = z.
Proof.
  intros Hz. unfold u8_to_Z, u8_of_Z.
  rewrite Z.mod_small by lia.
  destruct (Byte.of_N (Z.to_N z)) as [b|] eqn:Hb.
  - apply Byte.to_of_N in Hb. rewrite Hb. lia.
  - apply Byte.of_N_None_iff in Hb. lia.
Qed.

Lemma u8_of_to_Z (b : u8) : u8_of_Z (u8_to_Z b) = b.
Proof.
  unfold u8_of_Z. pose proof (u8_to_Z_range b) as Hr.
  rewrite Z.mod_small by lia. unfold u8_to_Z.
  rewrite N2Z.id, Byte.of_to_N. reflexivity.
Qed.

(** ** Placement (C5) *)

(** C5: [_place_xy] puts the box at (e, e) for "top_left", at
    (W - bw - e, e) for "top_right", at (e, H - bh - e) for "bottom_left",
    at (W - bw - e, H - bh - e) for "bottom_right" and at
    ((W - bw) / 2, (H - bh) / 2), rounded down, for "center".  With
    "top_left" and offset 0 the corner is (0, 0); with "center" twice the
    box centre, 2 x + bw, differs from twice the image centre, W, by at
    most 1 in each direction. *)
Theorem place_xy_table (W H bw bh e : Z) :
  _place_xy W H bw bh "top_left" e = (e, e) /\
  _place_xy W H bw bh "top_right" e = (W - bw - e, e) /\
  _place_xy W H bw bh "bottom_left" e = (e, H - bh - e) /\
  _place_xy W H bw bh "bottom_right" e = (W - bw - e, H - bh - e) /\
  _place_xy W H bw bh "center" e = ((W - bw) / 2, (H - bh) / 2) /\
  _place_xy W H bw bh "top_left" 0 = (0, 0) /\
  (let '(x, y) := _place_xy W H bw bh "center" e in
   0 <= W - (2 * x + bw) <= 1 /\ 0 <= H - (2 * y + bh) <= 1).
Proof.
  repeat split; try reflexivity; cbn;
    [ pose proof (Z.mod_pos_bound (W - bw) 2 ltac:(lia));
      pose proof (Z.div_mod (W - bw) 2 ltac:(lia))
    | pose proof (Z.mod_pos_bound (W - bw) 2 ltac:(lia));
      pose proof (Z.div_mod (W - bw) 2 ltac:(lia))
    | pose proof (Z.mod_pos_bound (H - bh) 2 ltac:(lia));
      pose proof (Z.div_mod (H - bh) 2 ltac:(lia))
    | pose proof (Z.mod_pos_bound (H - bh) 2 ltac:(lia));
      pose proof (Z.div_mod (H - bh) 2 ltac:(lia)) ]; lia.
Qed.

(** ** Box geometry (C3, C4, C7) *)

Lemma label_layout_box (W H l t r b : Z) (placement : string) (e pad cr : Z) :
  let g := label_layout W H (l, t, r, b) placement e pad cr in
  box_w g = (r - l) + 2 * pad /\ box_h g = (b - t) + 2 * pad /\
  (box_x g, box_y g) = _place_xy W H (box_w g) (box_h g) placement e /\
  radius g = Z.max 0 (Z.min cr (Z.min (box_w g) (box_h g) / 2)).
Proof.
  cbv zeta. unfold label_layout.
  destruct (_place_xy W H (r - l + pad * 2) (b - t + pad * 2) placement e)
    as [x y] eqn:Hxy.
  cbn [box_w box_h box_x box_y radius]. rewrite Hxy.
  repeat split; lia.
Qed.



(** The loop body draws with the layout of the image: the box goes on the
    overlay at [box_rect], the text at [(text_x, text_y)]. *)
Lemma label_image_layout (L : Libs) (f : font L) (text placement : string)
    (e pad cr : Z) (tc bc : string) (t : image fpx) :
  let g := image_layout L f text placement e pad cr t in
  label_image L f text placement e pad cr tc bc t =
    (bg ← _rgba bc (1 # 2);
     base ← alpha_composite L (convert_RGBA (_tensor_to_pil L t))
                            (box_overlay L (width t) (height t) g (ink bg));
     fg ← _rgba tc 1;
     Some (draw_text L base (text_x g) (text_y g) text f (ink fg))).
Proof. reflexivity. Qed.


(** C4: whatever corner radius is requested, the radius handed to the
    drawing call is not negative and not more than half the smaller side
    of the box. *)
Theorem corner_radius_clamped (W H : Z) (bbox : Z * Z * Z * Z)
    (placement : string) (e pad cr : Z) :
  0 <= box_w (label_layout W H bbox placement e pad cr) ->
  0 <= box_h (label_layout W H bbox placement e pad cr) ->
  0 <= radius (label_layout W H bbox placement e pad cr) /\
  radius (label_layout W H bbox placement e pad cr)
    <= Z.min (box_w (label_layout W H bbox placement e pad cr))
             (box_h (label_layout W H bbox placement e pad cr)) / 2 /\
  2 * radius (label_layout W H bbox placement e pad cr)
    <= Z.min (box_w (label_layout W H bbox placement e pad cr))
             (box_h (label_layout W H bbox placement e pad cr)).
Proof.
  destruct bbox as [[[l tp] r] b].
  pose proof (label_layout_box W H l tp r b placement e pad cr) as (_ & _ & _ & Hr).
  cbv zeta in Hr.
  set (g := label_layout _ _ _ _ _ _ _) in *.
  intros Hw Hh. rewrite Hr.
  assert (Hm : 0 <= Z.min (box_w g) (box_h g)) by lia.
  pose proof (Z.div_mod (Z.min (box_w g) (box_h g)) 2 ltac:(lia)) as Hd.
  pose proof (Z.mod_pos_bound (Z.min (box_w g) (box_h g)) 2 ltac:(lia)) as Hb.
  lia.
Qed.

Lemma corner_radius_clamped_witness :
  let g := label_layout 100 100 (1, 2, 31, 12) "top_left" 0 10 128 in
  0 <= radius g /\ radius g <= Z.min (box_w g) (box_h g) / 2 /\
  2 * radius g <= Z.min (box_w g) (box_h g).
Proof.
  apply (corner_radius_clamped 100 100 (1, 2, 31, 12) "top_left" 0 10 128);
    vm_compute; discriminate.
Defined.


(** ** The loop body succeeds and keeps the shape *)

Section Body.
Context (L : Libs).

Lemma scheme_colours_cases (s : string) :
  scheme_colours s = ("#FFFFFF", "#000000")%string \/
  scheme_colours s = ("#000000", "#FFFFFF")%string.
Proof. unfold scheme_colours. destruct (String.eqb s _); auto. Qed.

(** The two fills of a scheme: the box at alpha 127, the text at alpha
    255. *)
Lemma scheme_fills (s : string) :
  let '(tc, bc) := scheme_colours s in
  exists (tr tg tb br bg bb : Z),
    _rgba tc 1 = Some (tr, tg, tb, 255) /\
    _rgba bc (1 # 2) = Some (br, bg, bb, 127) /\
    ((tr, tg, tb) = (255, 255, 255) /\ (br, bg, bb) = (0, 0, 0) \/
     (tr, tg, tb) = (0, 0, 0) /\ (br, bg, bb) = (255, 255, 255)).
Proof.
  unfold scheme_colours. destruct (String.eqb s _).
  - exists 255, 255, 255, 0, 0, 0. repeat split; auto.
  - exists 0, 0, 0, 255, 255, 255. repeat split; auto.
Qed.

Lemma alpha_composite_overlay (base : image rgba) (g : layout) (fill : rgba) :
  alpha_composite L base (box_overlay L (width base) (height base) g fill) =
  Some (Image (width base) (height base)
          (zip_with (composite_px L) (pixels base)
             (pixels (box_overlay L (width base) (height base) g fill)))).
Proof.
  unfold alpha_composite, box_overlay, rounded_rectangle.
  destruct (box_rect g) as [[[x0 y0] x1] y1]. cbn.
  rewrite !Nat.eqb_refl. reflexivity.
Qed.


Lemma label_image_shape (f : font L) (text placement : string)
    (e pad cr : Z) (tc bc : string) (t : image fpx) (base : image rgba) :
  label_image L f text placement e pad cr tc bc t = Some base ->
  width base = width t /\ height base = height t.
Proof.
  unfold label_image.
  destruct (_rgba bc (1 # 2)) as [bg|]; [|discriminate].
  cbn [mbind option_bind].
  rewrite alpha_composite_overlay. cbn [mbind option_bind].
  destruct (_rgba tc 1) as [fg|]; [|discriminate].
  cbn [mbind option_bind].
  intros [= <-]. split; reflexivity.
Qed.


Lemma render_image_shape (f : font L) (text placement : string)
    (e pad cr : Z) (tc bc : string) (t o : image fpx) :
  render_image L f text placement e pad cr tc bc t = Some o ->
  width o = width t /\ height o = height t.
Proof.
  unfold render_image.
  destruct (label_image L f text placement e pad cr tc bc t) as [base|] eqn:Hb;
    [|discriminate].
  cbn [mbind option_bind]. intros [= <-].
  apply label_image_shape in Hb. exact Hb.
Qed.


End Body.

(** ** Batches (C1, C9) *)







(** ** Font loading (C6) *)

Section FontLoading.
Context (L : Libs).




End FontLoading.



(** ** Value range (C10) *)


Lemma SFcompare_antisym (x y : spec_float) :
  SFcompare y x = CompOpp <$> SFcompare x y.
Proof.
  destruct x as [sx|sx| |sx mx ex], y as [sy|sy| |sy my ey]; cbn;
    try reflexivity;
    try (destruct sx; reflexivity); try (destruct sy; reflexivity);
    try (destruct sx, sy; reflexivity).
  destruct sx, sy; cbn; try reflexivity;
    rewrite (Z.compare_antisym ex ey);
    destruct (ex ?= ey); cbn; try reflexivity;
    rewrite (Pos.compare_cont_antisym mx my Eq); cbn;
    destruct (Pos.compare_cont Eq my mx); reflexivity.
Qed.

Lemma f32_not_ltb_leb (x y : f32) :
  f32_is_nan x = false -> f32_is_nan y = false ->
  f32_ltb x y = false -> f32_leb y x = true.
Proof.
  unfold f32_ltb, f32_leb, SFltb, SFleb. intros Hx Hy.
  rewrite (SFcompare_antisym x y).
  destruct (SFcompare x y) as [[]|] eqn:Hc; cbn; try reflexivity; try discriminate.
  destruct x, y; cbn in *; discriminate.
Qed.

(** After [clamp(0, 1)] an element is NaN or lies in [0, 1]. *)
Lemma f32_clamp01_range (x : f32) :
  f32_is_nan (f32_clamp01 x) = true \/ in_unit (f32_clamp01 x) = true.
Proof.
  unfold f32_clamp01.
  destruct (f32_is_nan x) eqn:Hn; [left; exact Hn|].
  destruct (f32_ltb x (f32_of_Z 0)) eqn:H0; [right; reflexivity|].
  destruct (f32_ltb (f32_of_Z 1) x) eqn:H1; [right; reflexivity|].
  right. unfold in_unit. apply andb_true_intro. split.
  - apply f32_not_ltb_leb; auto.
  - apply f32_not_ltb_leb; auto.
Qed.

(** A byte divided by 255 in float32 lies in [0, 1]. *)
Lemma dequantize_in_unit (b : u8) : in_unit (dequantize b) = true.
Proof. destruct b; vm_compute; reflexivity. Qed.

Lemma torch_stack_images (outs : list (image fpx)) (b : batch) :
  torch_stack outs = Some b -> batch_images b = map pixels outs.
Proof.
  unfold torch_stack. destruct outs as [|o outs]; [discriminate|].
  destruct (forallb _ _); [|discriminate]. intros [= <-]. reflexivity.
Qed.

Lemma render_image_pixels (L : Libs) (f : font L) (text placement : string)
    (e pad cr : Z) (tc bc : string) (t o : image fpx) :
  render_image L f text placement e pad cr tc bc t = Some o ->
  exists base : image rgba,
    label_image L f text placement e pad cr tc bc t = Some base /\
    pixels o = map (fun '(r, g, b, _) => (dequantize r, dequantize g, dequantize b))
                   (pixels base).
Proof.
  unfold render_image.
  destruct (label_image L f text placement e pad cr tc bc t) as [base|];
    [|discriminate].
  cbn [mbind option_bind]. intros [= <-]. exists base. split; [reflexivity|].
  unfold _pil_to_tensor, convert_RGB, pmap. cbn [pixels].
  rewrite map_map. apply map_ext. intros [[[r g] b] a]. reflexivity.
Qed.

(** C10: every channel value of every pixel of every image that
    [add_label] returns is a byte divided by 255 in float32 and lies in
    [0, 1], whatever the input tensor holds (values above 1, below 0,
    infinities, NaN).  On the way in, an element is clamped before it is
    scaled, rounded and stored in a byte: the clamped element is NaN or
    lies in [0, 1]. *)
Theorem output_values_in_unit_interval (L : Libs) (image : tensor)
    (text fam : string) (size : Z) (placement : string) (e : Z) (s : string)
    (pad cr : Z) (out : batch) :
  add_label L image text fam size placement e s pad cr = Some out ->
  (forall x : f32,
      quantize L x = f32_to_u8 L (f32_round (f32_mul (f32_clamp01 x) (f32_of_Z 255))) /\
      (f32_is_nan (f32_clamp01 x) = true \/ in_unit (f32_clamp01 x) = true)) /\
  (forall (data : list fpx) (r g b : f32),
      data ∈ batch_images out -> (r, g, b) ∈ data ->
      (exists br bg bb : u8,
          r = dequantize br /\ g = dequantize bg /\ b = dequantize bb) /\
      in_unit r = true /\ in_unit g = true /\ in_unit b = true).
Proof.
  intros Hout. split.
  - intros x. split; [reflexivity|apply f32_clamp01_range].
  - intros data r g b Hdata Hpx.
    unfold add_label, add_label_with in Hout.
    destruct (scheme_colours s) as [tc bc].
    destruct (mapM _ _) as [outs|] eqn:Hm; [|discriminate].
    cbn [mbind option_bind] in Hout.
    apply torch_stack_images in Hout. rewrite Hout in Hdata.
    apply list_elem_of_fmap in Hdata. destruct Hdata as (o & -> & Ho).
    pose proof (mapM_Some_1 _ _ _ Hm) as H2.
    apply list_elem_of_lookup in Ho. destruct Ho as [i Ho].
    destruct (Forall2_lookup_r _ _ _ _ _ H2 Ho) as (t & _ & Hr).
    apply render_image_pixels in Hr. destruct Hr as (base & _ & Hp).
    rewrite Hp in Hpx. apply list_elem_of_fmap in Hpx.
    destruct Hpx as ([[[br bg] bb] ba] & Heq & _).
    injection Heq as -> -> ->.
    split; [exists br, bg, bb; auto|].
    repeat split; apply dequantize_in_unit.
Qed.

Lemma output_values_in_unit_interval_witness :
  exists out,
    add_label Ref.libs
      (Tensor3 (Image 2 1 [(f32_of_Z 7, f32_of_Z (-7), S754_nan);
                           (S754_infinity false, S754_infinity true, Ref.fhalf)]))
      "HI" "Arial" 6 "top_left" 0 "black_on_white" 0 0 = Some out /\
    forall (data : list fpx) (r g b : f32),
      data ∈ batch_images out -> (r, g, b) ∈ data ->
      in_unit r = true /\ in_unit g = true /\ in_unit b = true.
Proof.
  destruct (add_label Ref.libs
      (Tensor3 (Image 2 1 [(f32_of_Z 7, f32_of_Z (-7), S754_nan);
                           (S754_infinity false, S754_infinity true, Ref.fhalf)]))
      "HI" "Arial" 6 "top_left" 0 "black_on_white" 0 0) as [out|] eqn:Hout.
  - exists out. split; [reflexivity|].
    intros data r g b Hd Hp.
    apply (proj2 (output_values_in_unit_interval _ _ _ _ _ _ _ _ _ _ _ Hout)
             data r g b Hd Hp).
  - vm_compute in Hout. discriminate.
Defined.

(** ** Reading pixels *)

Lemma index_mod_div (w x y : nat) :
  (x < w)%nat -> ((y * w + x) mod w = x /\ (y * w + x) / w = y)%nat.
Proof.
  intros Hx. split.
  - rewrite Nat.add_comm, Nat.Div0.mod_add. apply Nat.mod_small. exact Hx.
  - rewrite Nat.add_comm, Nat.div_add by lia. rewrite Nat.div_small by exact Hx.
    reflexivity.
Qed.

Lemma pixel_at_pmap {A B : Type} (f : A -> B) (im : image A) (x y : nat) :
  pixel_at (pmap f im) x y = f <$> pixel_at im x y.
Proof.
  unfold pixel_at, pmap. cbn [width pixels].
  destruct (x <? width im)%nat; [|reflexivity].
  apply list_lookup_fmap.
Qed.

Lemma pixel_at_pmapi {A B : Type} (f : Z -> Z -> A -> B) (im : image A) (x y : nat) :
  pixel_at (pmapi f im) x y = f (Z.of_nat x) (Z.of_nat y) <$> pixel_at im x y.
Proof.
  unfold pixel_at, pmapi. cbn [width pixels].
  destruct (x <? width im)%nat eqn:Hx; [|reflexivity].
  apply Nat.ltb_lt in Hx.
  rewrite list_lookup_imap.
  destruct (index_mod_div (width im) x y Hx) as [-> ->]. reflexivity.
Qed.

Lemma pixel_at_Image_new (w h : nat) (c : rgba) (x y : nat) :
  (x < w)%nat -> (y < h)%nat -> pixel_at (Image_new w h c) x y = Some c.
Proof.
  intros Hx Hy. unfold pixel_at, Image_new. cbn [width pixels].
  apply Nat.ltb_lt in Hx as Hx'. rewrite Hx'.
  apply lookup_replicate_2. nia.
Qed.

Lemma pixel_at_in_range {A : Type} (im : image A) (x y : nat) (p : A) :
  image_wf im -> pixel_at im x y = Some p ->
  (x < width im)%nat /\ (y < height im)%nat.
Proof.
  unfold image_wf, pixel_at. intros Hwf Hp.
  destruct (x <? width im)%nat eqn:Hx; [|discriminate].
  apply Nat.ltb_lt in Hx. split; [exact Hx|].
  apply lookup_lt_Some in Hp. nia.
Qed.

Section Compositing.
Context (L : Libs).

Lemma pixel_at_alpha_composite (dst src out : image rgba) (x y : nat) (d s : rgba) :
  alpha_composite L dst src = Some out ->
  pixel_at dst x y = Some d -> pixel_at src x y = Some s ->
  pixel_at out x y = Some (composite_px L d s).
Proof.
  unfold alpha_composite.
  destruct (Nat.eqb (width dst) (width src)) eqn:Hw; [|discriminate].
  destruct (Nat.eqb (height dst) (height src)); [|discriminate].
  cbn [andb]. intros [= <-]. apply Nat.eqb_eq in Hw.
  unfold pixel_at. cbn [width pixels]. rewrite <- Hw.
  destruct (x <? width dst)%nat; [|discriminate].
  intros Hd Hs. rewrite lookup_zip_with, Hd. cbn. rewrite Hs. reflexivity.
Qed.

(** The overlay holds the fill where the box covers and nothing
    elsewhere. *)
Lemma pixel_at_box_overlay (w h : nat) (g : layout) (fill : rgba) (x y : nat) :
  (x < w)%nat -> (y < h)%nat ->
  pixel_at (box_overlay L w h g fill) x y =
    Some (let '(x0, y0, x1, y1) := box_rect g in
          if rr_cover L x0 y0 x1 y1 (radius g) (Z.of_nat x) (Z.of_nat y)
          then fill else (x00, x00, x00, x00)).
Proof.
  intros Hx Hy. unfold box_overlay, rounded_rectangle.
  destruct (box_rect g) as [[[x0 y0] x1] y1].
  rewrite pixel_at_pmapi, pixel_at_Image_new by assumption. reflexivity.
Qed.
End Compositing.

(** ** Box blend and text ink (C2) *)



Lemma render_image_pixel_at (L : Libs) (f : font L) (text placement : string)
    (e pad rad : Z) (tc bc : string) (t o : image fpx) (x y : nat) :
  render_image L f text placement e pad rad tc bc t = Some o ->
  exists base : image rgba,
    label_image L f text placement e pad rad tc bc t = Some base /\
    pixel_at o x y =
      (fun '(r, g, b, _) => (dequantize r, dequantize g, dequantize b))
        <$> pixel_at base x y.
Proof.
  unfold render_image.
  destruct (label_image L f text placement e pad rad tc bc t) as [base|];
    [|discriminate].
  cbn [mbind option_bind]. intros [= <-]. exists base. split; [reflexivity|].
  unfold _pil_to_tensor, convert_RGB. rewrite !pixel_at_pmap.
  rewrite <- option_fmap_compose.
  apply option_fmap_ext. intros [[[r g] b] a]. reflexivity.
Qed.

(** The pixel of the labelled image at [(x, y)], before it goes back to
    floats: the base pixel under the box layer, then the text ink through
    the glyph coverage. *)
Lemma label_image_pixel_at (L : Libs) (f : font L) (text placement : string)
    (e pad rad : Z) (tc bc : string) (t : image fpx) (base : image rgba)
    (bfill tfill : Z * Z * Z * Z) (x y : nat) (cr cg cb : f32) :
  image_wf t ->
  _rgba bc (1 # 2) = Some bfill -> _rgba tc 1 = Some tfill ->
  label_image L f text placement e pad rad tc bc t = Some base ->
  pixel_at t x y = Some (cr, cg, cb) ->
  let g := image_layout L f text placement e pad rad t in
  pixel_at base x y =
    Some (paste_px L
            (composite_px L (quantize L cr, quantize L cg, quantize L cb, xff)
               (let '(x0, y0, x1, y1) := box_rect g in
                if rr_cover L x0 y0 x1 y1 (radius g) (Z.of_nat x) (Z.of_nat y)
                then ink bfill else (x00, x00, x00, x00)))
            (ink tfill)
            (text_mask L f text (Z.of_nat x - text_x g) (Z.of_nat y - text_y g))).
Proof.
  intros Hwf Hb Ht Hl Hp g.
  destruct (pixel_at_in_range t x y _ Hwf Hp) as [Hx Hy].
  rewrite label_image_layout in Hl. fold g in Hl.
  rewrite Hb in Hl. cbn [mbind option_bind] in Hl.
  destruct (alpha_composite L _ _) as [base1|] eqn:Hc; [|discriminate].
  cbn [mbind option_bind] in Hl. rewrite Ht in Hl.
  cbn [mbind option_bind] in Hl. injection Hl as <-.
  unfold draw_text. rewrite pixel_at_pmapi.
  erewrite (pixel_at_alpha_composite L _ _ _ x y _ _ Hc).
  - reflexivity.
  - unfold convert_RGBA, _tensor_to_pil. rewrite !pixel_at_pmap.
    unfold fpx in Hp. rewrite Hp. reflexivity.
  - apply pixel_at_box_overlay; assumption.
Qed.

Module RefFacts.



Lemma mix_none (d i : Z) : 0 <= d <= 255 -> Ref.mix d i 0 = d.
Proof.
  intros Hd. unfold Ref.mix.
  replace (d * (255 - 0) + i * 0 + 127) with (d * 255 + 127) by ring.
  pose proof (Z.div_mod (d * 255 + 127) 255 ltac:(lia)).
  pose proof (Z.mod_pos_bound (d * 255 + 127) 255 ltac:(lia)). lia.
Qed.

Lemma mix_full (d i : Z) : 0 <= i <= 255 -> Ref.mix d i 255 = i.
Proof.
  intros Hi. unfold Ref.mix.
  replace (d * (255 - 255) + i * 255 + 127) with (i * 255 + 127) by ring.
  pose proof (Z.div_mod (i * 255 + 127) 255 ltac:(lia)).
  pose proof (Z.mod_pos_bound (i * 255 + 127) 255 ltac:(lia)). lia.
Qed.

Lemma paste_ok : paste_contract Ref.libs.
Proof.
  intros [[[dr dg] db] da] [[[ir ig] ib] ia].
  cbn [paste_px Ref.libs Ref.paste_px].
  change (u8_to_Z x00) with 0. change (u8_to_Z xff) with 255.
  split.
  - rewrite !mix_none by apply u8_to_Z_range.
    rewrite !u8_of_to_Z. reflexivity.
  - rewrite !mix_full by apply u8_to_Z_range.
    rewrite !u8_of_to_Z. reflexivity.
Qed.
End RefFacts.




(** ** Only new objects are written *)

Module StoreFacts.
Import Store.


Section Keeps.
Context (s0 : store).

Lemma keeps_ret {A : Type} (P : A -> Prop) (a : A) : P a -> keeps s0 P (mret a).
Proof. intros Ha s a' s' Hs [= <- <-]. auto. Qed.

Lemma keeps_bind {A B : Type} (P : A -> Prop) (Q : B -> Prop)
    (m : M A) (k : A -> M B) :
  keeps s0 P m -> (forall a, P a -> keeps s0 Q (k a)) ->
  keeps s0 Q (a ← m; k a).
Proof.
  intros Hm Hk s b s' Hs. unfold mbind, M_bind.
  destruct (m s) as [[a s1]|] eqn:E; [|discriminate].
  destruct (Hm s a s1 Hs E) as [Hs1 Ha]. intros Hb.
  exact (Hk a Ha s1 b s' Hs1 Hb).
Qed.

Lemma keeps_weaken {A : Type} (P Q : A -> Prop) (m : M A) :
  (forall a, P a -> Q a) -> keeps s0 P m -> keeps s0 Q m.
Proof. intros HPQ Hm s a s' Hs E. destruct (Hm s a s' Hs E). auto. Qed.

Lemma keeps_raise {A : Type} (P : A -> Prop) : keeps s0 P raise.
Proof. intros s a s' _ [=]. Qed.

Lemma keeps_lift {A : Type} (o : option A) : keeps s0 any (lift o).
Proof.
  destruct o; [apply keeps_ret; exact I|apply keeps_raise].
Qed.

Lemma keeps_alloc (o : obj) : keeps s0 (new_loc s0) (alloc o).
Proof.
  intros s l s' Hs [= <- <-]. split.
  - apply prefix_app_r. exact Hs.
  - apply prefix_length. exact Hs.
Qed.

Lemma keeps_load (l : loc) : keeps s0 any (load l).
Proof.
  intros s o s' Hs. unfold load. destruct (s !! l); [|discriminate].
  intros [= <- <-]. split; [exact Hs|exact I].
Qed.

Lemma keeps_put (l : loc) (o : obj) : new_loc s0 l -> keeps s0 any (put l o).
Proof.
  intros Hl s u s' [k ->]. unfold put.
  destruct (l <? length (s0 ++ k))%nat; [|discriminate].
  intros [= <- <-]. split; [|exact I].
  unfold store, loc. rewrite insert_app_r_alt by exact Hl.
  eexists. reflexivity.
Qed.

Lemma keeps_mapM {A B : Type} (P : B -> Prop) (f : A -> M B) (l : list A) :
  (forall x, keeps s0 P (f x)) -> keeps s0 (Forall P) (mapM f l).
Proof.
  intros Hf. induction l as [|x l IH]; cbn.
  - apply keeps_ret. constructor.
  - eapply keeps_bind; [apply Hf|]. intros y Hy.
    eapply keeps_bind; [apply IH|]. intros ys Hys.
    apply keeps_ret. constructor; assumption.
Qed.
End Keeps.

Create HintDb keeps.
#[local] Hint Resolve keeps_alloc keeps_load keeps_lift keeps_raise : keeps.

(** Step through one bind with a known rule for its first call. *)
Ltac keeps_step := eapply keeps_bind; [solve [eauto with keeps]|intros ? ?].

Section Ops.
Context (L : Libs) (s0 : store).

Lemma keeps_load_float l : keeps s0 any (load_float l).
Proof.
  unfold load_float. keeps_step.
  destruct a; first [apply keeps_ret; exact I | apply keeps_raise].
Qed.
Lemma keeps_load_bytes l : keeps s0 any (load_bytes l).
Proof.
  unfold load_bytes. keeps_step.
  destruct a; first [apply keeps_ret; exact I | apply keeps_raise].
Qed.
Lemma keeps_load_rgb l : keeps s0 any (load_rgb l).
Proof.
  unfold load_rgb. keeps_step.
  destruct a; first [apply keeps_ret; exact I | apply keeps_raise].
Qed.
Lemma keeps_load_rgba l : keeps s0 any (load_rgba l).
Proof.
  unfold load_rgba. keeps_step.
  destruct a; first [apply keeps_ret; exact I | apply keeps_raise].
Qed.

#[local] Hint Resolve keeps_load_float keeps_load_bytes keeps_load_rgb
  keeps_load_rgba : keeps.

Lemma keeps_load_item t : keeps s0 any (load_item t).
Proof.
  unfold load_item. keeps_step.
  destruct (t_view t); auto with keeps.
Qed.
#[local] Hint Resolve keeps_load_item : keeps.

Lemma keeps_t_shape0 t : keeps s0 any (t_shape0 t).
Proof.
  unfold t_shape0. keeps_step.
  destruct (t_view t); first [apply keeps_ret; exact I | apply keeps_raise].
Qed.

Lemma keeps_float_map f t : keeps s0 (new_ref s0) (float_map f t).
Proof.
  unfold float_map. keeps_step. keeps_step.
  apply keeps_ret. assumption.
Qed.

Lemma keeps_np_astype_u8 a : keeps s0 (new_loc s0) (np_astype_u8 L a).
Proof. unfold np_astype_u8. keeps_step. apply keeps_alloc. Qed.

Lemma keeps_np_astype_f32 a : keeps s0 (new_ref s0) (np_astype_f32 a).
Proof.
  unfold np_astype_f32. keeps_step. keeps_step. apply keeps_ret. assumption.
Qed.

Lemma keeps_np_array im : keeps s0 (new_loc s0) (np_array im).
Proof. unfold np_array. keeps_step. apply keeps_alloc. Qed.

Lemma keeps_Image_fromarray a : keeps s0 (new_loc s0) (Image_fromarray a).
Proof. unfold Image_fromarray. keeps_step. apply keeps_alloc. Qed.

Lemma keeps_im_convert_RGBA im : keeps s0 (new_loc s0) (im_convert_RGBA im).
Proof. unfold im_convert_RGBA. keeps_step. apply keeps_alloc. Qed.

Lemma keeps_im_convert_RGB im : keeps s0 (new_loc s0) (im_convert_RGB im).
Proof. unfold im_convert_RGB. keeps_step. apply keeps_alloc. Qed.

Lemma keeps_im_size im : keeps s0 any (im_size im).
Proof. unfold im_size. keeps_step. apply keeps_ret. exact I. Qed.

Lemma keeps_im_new_RGBA size c : keeps s0 (new_loc s0) (im_new_RGBA size c).
Proof. apply keeps_alloc. Qed.

Lemma keeps_im_alpha_composite dst src :
  keeps s0 (new_loc s0) (im_alpha_composite L dst src).
Proof.
  unfold im_alpha_composite. keeps_step. keeps_step. keeps_step.
  apply keeps_alloc.
Qed.

(** The drawing calls write the image they are given: it has to be a
    new one. *)
Lemma keeps_draw_rounded_rectangle im rect r fill :
  new_loc s0 im -> keeps s0 any (draw_rounded_rectangle L im rect r fill).
Proof.
  intros Him. unfold draw_rounded_rectangle. keeps_step.
  apply keeps_put. exact Him.
Qed.

Lemma keeps_draw_text_on im tx ty text f fill :
  new_loc s0 im -> keeps s0 any (draw_text_on L im tx ty text f fill).
Proof.
  intros Him. unfold draw_text_on. keeps_step.
  apply keeps_put. exact Him.
Qed.

Lemma keeps__tensor_to_pil t : keeps s0 (new_loc s0) (Store._tensor_to_pil L t).
Proof.
  unfold Store._tensor_to_pil, t_clamp01, np_mul, np_round.
  eapply keeps_bind; [apply keeps_float_map|intros ? ?].
  eapply keeps_bind; [apply keeps_float_map|intros ? ?].
  eapply keeps_bind; [apply keeps_float_map|intros ? ?].
  eapply keeps_bind; [apply keeps_np_astype_u8|intros ? ?].
  apply keeps_Image_fromarray.
Qed.

Lemma keeps__pil_to_tensor im : keeps s0 (new_ref s0) (Store._pil_to_tensor im).
Proof.
  unfold Store._pil_to_tensor, np_div.
  eapply keeps_bind; [apply keeps_np_array|intros ? ?].
  eapply keeps_bind; [apply keeps_np_astype_f32|intros ? ?].
  eapply keeps_bind; [apply keeps_float_map|intros ? ?].
  apply keeps_ret. assumption.
Qed.

Lemma keeps_loop_body f text placement e pad rad tc bc t :
  keeps s0 (new_ref s0) (loop_body L f text placement e pad rad tc bc t).
Proof.
  unfold loop_body.
  eapply keeps_bind; [apply keeps__tensor_to_pil|intros pil Hpil].
  eapply keeps_bind; [apply keeps_im_convert_RGBA|intros base Hbase].
  eapply keeps_bind; [apply keeps_im_size|intros size _].
  eapply keeps_bind; [apply keeps_im_new_RGBA|intros overlay Hoverlay].
  eapply keeps_bind; [apply keeps_lift|intros bg _].
  eapply keeps_bind;
    [apply keeps_draw_rounded_rectangle; exact Hoverlay|intros _ _].
  eapply keeps_bind; [apply keeps_im_alpha_composite|intros base' Hbase'].
  eapply keeps_bind; [apply keeps_lift|intros fg _].
  eapply keeps_bind; [apply keeps_draw_text_on; exact Hbase'|intros _ _].
  eapply keeps_bind; [apply keeps_im_convert_RGB|intros rgbim _].
  apply keeps__pil_to_tensor.
Qed.

Lemma keeps_t_stack out : keeps s0 (new_ref s0) (t_stack out).
Proof.
  unfold t_stack.
  eapply keeps_bind; [apply keeps_mapM; intros; apply keeps_load_item|intros ? _].
  eapply keeps_bind; [apply keeps_lift|intros ? _].
  eapply keeps_bind; [apply keeps_alloc|intros ? ?].
  apply keeps_ret. assumption.
Qed.

Lemma keeps_add_label image text fam size placement e s pad rad :
  keeps s0 (new_ref s0)
        (Store.add_label L image text fam size placement e s pad rad).
Proof.
  unfold Store.add_label. destruct (scheme_colours s) as [tc bc].
  eapply keeps_bind; [apply keeps_t_shape0|intros n _].
  eapply keeps_bind;
    [apply keeps_mapM; intros; apply keeps_loop_body|intros out _].
  apply keeps_t_stack.
Qed.
End Ops.
End StoreFacts.

(** C8: [add_label] leaves what it is given untouched.  Whatever the
    store holds when the call starts, every object in it (the storage of
    the input tensor among them) holds the same value when the call
    returns; the store has only grown by new objects, and the returned
    tensor is one of the new objects.  Fonts are only looked up. *)
Theorem add_label_leaves_inputs (L : Libs) (s s' : Store.store)
    (image res : Store.tref) (text fam : string) (size : Z) (placement : string)
    (e : Z) (sch : string) (pad rad : Z) :
  Store.add_label L image text fam size placement e sch pad rad s = Some (res, s') ->
  (forall (l : Store.loc) (o : Store.obj), s !! l = Some o -> s' !! l = Some o) /\
  s `prefix_of` s' /\
  (length s <= Store.t_loc res)%nat.
Proof.
  intros Hrun.
  destruct (StoreFacts.keeps_add_label L s image text fam size placement e sch
              pad rad s res s' (reflexivity s) Hrun) as [Hpre Hnew].
  split; [|split].
  - intros l o Hl. exact (prefix_lookup_Some _ _ _ _ Hl Hpre).
  - exact Hpre.
  - exact Hnew.
Qed.

Lemma add_label_leaves_inputs_witness :
  let b := Batch 2 3 [replicate 6 (Ref.f1, Ref.f0, Ref.fhalf);
                      replicate 6 (Ref.f0, f32_of_Z 7, Ref.f1)] in
  exists (res : Store.tref) (s' : Store.store),
    Store.add_label Ref.libs (Store.TRef 1%nat Store.Whole) "HI" "Monospace" 4
                    "center" 0 "white_on_black" 1 1
                    [Store.ORGB (Image 0 0 []); Store.OFloat b] = Some (res, s') /\
    s' !! 0%nat = Some (Store.ORGB (Image 0 0 [])) /\
    s' !! 1%nat = Some (Store.OFloat b) /\
    (2 <= Store.t_loc res)%nat.
Proof.
  intros b.
  destruct (Store.add_label Ref.libs (Store.TRef 1%nat Store.Whole) "HI" "Monospace" 4
              "center" 0 "white_on_black" 1 1
              [Store.ORGB (Image 0 0 []); Store.OFloat b])
    as [[res s']|] eqn:Hrun; [|vm_compute in Hrun; discriminate].
  exists res, s'. split; [reflexivity|].
  destruct (add_label_leaves_inputs _ _ _ _ _ _ _ _ _ _ _ _ _ Hrun)
    as (Hkeep & _ & Hnew).
  split; [|split].
  - apply Hkeep. reflexivity.
  - apply Hkeep. reflexivity.
  - exact Hnew.
Defined.

(** ** The store run computes what the functions compute *)

Module StoreRun.

(** The functions of the first part, under names that stay visible next to
    their store counterparts. *)
Local Abbreviation fn_tensor_to_pil := _tensor_to_pil.
Local Abbreviation fn_pil_to_tensor := _pil_to_tensor.
Local Abbreviation fn_add_label := add_label.

Import Store.













Section Run.
Context (L : Libs).
























End Run.
End StoreRun.

(** * Worked examples on the reference instance *)

Example rgba_box_white : _rgba "#FFFFFF" (1 # 2) = Some (255, 255, 255, 127).
Proof. reflexivity. Qed.

Example rgba_text_black : _rgba "#000000" 1 = Some (0, 0, 0, 255).
Proof. reflexivity. Qed.

Example rgba_short_form : _rgba " #0f8 " 1 = Some (0, 255, 136, 255).
Proof. reflexivity. Qed.

Example rgba_other_length : _rgba "#12345" 1 = Some (255, 255, 255, 255).
Proof. reflexivity. Qed.

Example rgba_bad_digit : _rgba "#GGGGGG" 1 = None.
Proof. reflexivity. Qed.

Example candidates_arial_linux :
  _font_candidates Ref.libs "Arial" =
    ["Arial.ttf"; "arial.ttf"; "/Library/Fonts/Arial.ttf";
     "C:\Windows\Fonts\arial.ttf";
     "/usr/share/fonts/truetype/msttcorefonts/Arial.ttf";
     "/root/.fonts/DejaVuSansMono.ttf";
     "/root/.local/share/fonts/DejaVuSansMono.ttf"]%string.
Proof. reflexivity. Qed.

Example quantize_values :
  map (quantize Ref.libs)
      [Ref.f0; Ref.fhalf; Ref.f1; f32_of_Z 7; f32_of_Z (-7);
       S754_infinity false; S754_infinity true]
  = [x00; x80; xff; xff; x00; xff; x00].
Proof. vm_compute. reflexivity. Qed.

(** A 100 x 100 image, "HI" in the built-in font (10 pixels), "top_left",
    offset 0, padding 10, radius 0: the box starts at (0, 0) and measures
    the text plus 20 each way. *)
Example layout_top_left :
  image_layout Ref.libs (_load_font Ref.libs "Arial" 30) "HI" "top_left" 0 10 0
               (Ref.solid 100 100 (Ref.f1, Ref.f1, Ref.f1))
  = Layout 30 30 0 0 0 9 8.
Proof. vm_compute. reflexivity. Qed.

Example layout_center_odd :
  image_layout Ref.libs (_load_font Ref.libs "Arial" 30) "HI" "center" 0 10 128
               (Ref.solid 101 100 (Ref.f1, Ref.f1, Ref.f1))
  = Layout 30 30 35 35 15 44 43.
Proof. vm_compute. reflexivity. Qed.

(** On the reference rasteriser the soft right edge of the glyphs mixes the
    text colour with what lies under it: full coverage is what makes a
    pixel take the text colour exactly. *)
Example soft_edge_is_mixed :
  (o ← render_image Ref.libs 4 "HI" "top_left" 1 2 1 "#000000" "#FFFFFF"
                    (Ref.solid 12 10 (Ref.f1, Ref.f0, Ref.fhalf));
   pixel_at o 6 4)
  = Some (dequantize x7f, dequantize x3f, dequantize x5f).
Proof. vm_compute. reflexivity. Qed.

(** * Further properties *)

(** ** Parsing colours *)

Lemma hex_digit_range (c : ascii) (d : Z) : hex_digit c = Some d -> 0 <= d <= 15.
Proof.
  unfold hex_digit. set (n := Z.of_N (N_of_ascii c)).
  destruct ((48 <=? n) && (n <=? 57)) eqn:H1;
    [intros [= <-]; apply andb_prop in H1; lia|].
  destruct ((65 <=? n) && (n <=? 70)) eqn:H2;
    [intros [= <-]; apply andb_prop in H2; lia|].
  destruct ((97 <=? n) && (n <=? 102)) eqn:H3;
    [intros [= <-]; apply andb_prop in H3; lia|discriminate].
Qed.

Lemma hex_digit_plain (c : ascii) (d : Z) :
  hex_digit c = Some d -> is_space c = false /\ Ascii.eqb c "#" = false.
Proof.
  destruct c as [[] [] [] [] [] [] [] []]; vm_compute; intros H;
    first [discriminate H | split; reflexivity].
Qed.


Lemma int16_pair_digits (c1 c2 : ascii) (d1 d2 : Z) :
  hex_digit c1 = Some d1 -> hex_digit c2 = Some d2 ->
  int16_pair c1 c2 = Some (16 * d1 + d2).
Proof. intros H1 H2. unfold int16_pair. rewrite H1, H2. reflexivity. Qed.






Lemma rstrip_space_cons (c : ascii) (s : string) :
  is_space c = false -> rstrip_space (String c s) = String c (rstrip_space s).
Proof.
  intros Hc. cbn. destruct (rstrip_space s); [rewrite Hc|]; reflexivity.
Qed.

(** A body of six hex digits gives three bytes, each [16 * high + low]. *)
Lemma rgba_six_digits (c1 c2 c3 c4 c5 c6 : ascii) (d1 d2 d3 d4 d5 d6 : Z)
    (alpha : Q) :
  hex_digit c1 = Some d1 -> hex_digit c2 = Some d2 -> hex_digit c3 = Some d3 ->
  hex_digit c4 = Some d4 -> hex_digit c5 = Some d5 -> hex_digit c6 = Some d6 ->
  _rgba (String c1 (String c2 (String c3 (String c4 (String c5 (String c6 ""))))))
        alpha
  = Some (16 * d1 + d2, 16 * d3 + d4, 16 * d5 + d6,
          Z.max 0 (Z.min 255 (py_int (alpha * 255)))).
Proof.
  intros H1 H2 H3 H4 H5 H6. unfold _rgba, strip.
  destruct (hex_digit_plain _ _ H1) as [S1 N1].
  destruct (hex_digit_plain _ _ H2) as [S2 _].
  destruct (hex_digit_plain _ _ H3) as [S3 _].
  destruct (hex_digit_plain _ _ H4) as [S4 _].
  destruct (hex_digit_plain _ _ H5) as [S5 _].
  destruct (hex_digit_plain _ _ H6) as [S6 _].
  cbn [lstrip_space]. rewrite S1.
  rewrite !rstrip_space_cons by assumption.
  cbn [rstrip_space lstrip_hash]. rewrite N1.
  rewrite (int16_pair_digits _ _ _ _ H1 H2), (int16_pair_digits _ _ _ _ H3 H4),
    (int16_pair_digits _ _ _ _ H5 H6).
  reflexivity.
Qed.



(** A body of six hex digits gives three bytes: every colour entry is
    [16 * high + low] and lies in 0..255, so Pillow takes it unchanged. *)
Theorem rgba_six_digits_are_bytes (c1 c2 c3 c4 c5 c6 : ascii)
    (d1 d2 d3 d4 d5 d6 : Z) (alpha : Q) :
  hex_digit c1 = Some d1 -> hex_digit c2 = Some d2 -> hex_digit c3 = Some d3 ->
  hex_digit c4 = Some d4 -> hex_digit c5 = Some d5 -> hex_digit c6 = Some d6 ->
  exists r g b a : Z,
    _rgba (String c1 (String c2 (String c3 (String c4 (String c5 (String c6 ""))))))
          alpha = Some (r, g, b, a) /\
    r = 16 * d1 + d2 /\ g = 16 * d3 + d4 /\ b = 16 * d5 + d6 /\
    0 <= r <= 255 /\ 0 <= g <= 255 /\ 0 <= b <= 255 /\
    u8_to_Z (ink (r, g, b, a)).1.1.1 = r /\
    u8_to_Z (ink (r, g, b, a)).1.1.2 = g /\
    u8_to_Z (ink (r, g, b, a)).1.2 = b.
Proof.
  intros H1 H2 H3 H4 H5 H6.
  do 4 eexists. split; [apply rgba_six_digits; eassumption|].
  apply hex_digit_range in H1, H2, H3, H4, H5, H6.
  repeat split; try lia; cbn [ink fst snd]; unfold clip8;
    rewrite u8_to_of_Z; lia.
Qed.

Lemma rgba_six_digits_are_bytes_witness :
  exists r g b a : Z,
    _rgba "1aFf09" (1 # 2) = Some (r, g, b, a) /\
    r = 26 /\ g = 255 /\ b = 9.
Proof.
  destruct (rgba_six_digits_are_bytes "1" "a" "F" "f" "0" "9" 1 10 15 15 0 9 (1 # 2)
              eq_refl eq_refl eq_refl eq_refl eq_refl eq_refl)
    as (r & g & b & a & H & Hr & Hg & Hb & _).
  exists r, g, b, a. auto.
Defined.





(** ** Between floats and bytes *)

Lemma quantize_dequantize (L : Libs) (b : u8) : quantize L (dequantize b) = b.
Proof. destruct b; vm_compute; reflexivity. Qed.

(** [_tensor_to_pil] undoes [_pil_to_tensor]: an 8-bit image that went to
    floats comes back as the same image, and a tensor that came from an
    8-bit image is returned unchanged by a further pass through bytes. *)
Theorem pil_tensor_round_trip (L : Libs) (im : image rgb) :
  _tensor_to_pil L (_pil_to_tensor im) = im /\
  _pil_to_tensor (_tensor_to_pil L (_pil_to_tensor im)) = _pil_to_tensor im.
Proof.
  assert (H : _tensor_to_pil L (_pil_to_tensor im) = im).
  { unfold _tensor_to_pil, _pil_to_tensor, pmap. destruct im as [w h px].
    cbn [width height pixels]. f_equal. rewrite map_map.
    rewrite <- (map_id px) at 2. apply map_ext.
    intros [[r g] b]. rewrite !quantize_dequantize. reflexivity. }
  split; [exact H|]. rewrite H. reflexivity.
Qed.

Lemma f32_compare_one_Eq (x : f32) :
  SFcompare (f32_of_Z 1) x = Some Eq -> x = f32_of_Z 1.
Proof.
  change (f32_of_Z 1) with (S754_finite false 8388608 (-23)).
  destruct x as [s|s| |s m e]; unfold SFcompare; try discriminate;
    try (destruct s; discriminate).
  destruct s; [discriminate|].
  destruct (-23 ?= e) eqn:He; try discriminate.
  apply Z.compare_eq in He. subst e.
  intros [= Hm]. apply Pos.compare_eq in Hm. subst m. reflexivity.
Qed.

(** Everything at or above 1 (infinity included) becomes the byte 255 and
    everything at or below 0 (negative infinity included) the byte 0. *)
Theorem quantize_saturates (L : Libs) (x : f32) :
  (f32_leb (f32_of_Z 1) x = true -> quantize L x = xff) /\
  (f32_leb x (f32_of_Z 0) = true -> quantize L x = x00).
Proof.
  split.
  - unfold f32_leb, SFleb. intros H.
    destruct (SFcompare (f32_of_Z 1) x) as [[]|] eqn:Hc; try discriminate.
    + apply f32_compare_one_Eq in Hc. subst x. reflexivity.
    + unfold quantize, f32_clamp01.
      assert (Hn : f32_is_nan x = false).
      { destruct x; try reflexivity.
        change (f32_of_Z 1) with (S754_finite false 8388608 (-23)) in Hc.
        discriminate Hc. }
      rewrite Hn.
      assert (H0 : f32_ltb x (f32_of_Z 0) = false).
      { unfold f32_ltb, SFltb.
        change (f32_of_Z 0) with (S754_zero false).
        change (f32_of_Z 1) with (S754_finite false 8388608 (-23)) in Hc.
        destruct x as [s|s| |s m e]; try reflexivity;
          destruct s; try reflexivity; discriminate Hc. }
      rewrite H0.
      unfold f32_ltb, SFltb. rewrite Hc. reflexivity.
  - unfold f32_leb, SFleb. intros H.
    change (f32_of_Z 0) with (S754_zero false) in *.
    destruct x as [s|s| |s m e]; cbn in H; try discriminate.
    + destruct s; reflexivity.
    + destruct s; [reflexivity|discriminate].
    + destruct s; [|discriminate].
      unfold quantize, f32_clamp01. cbn. reflexivity.
Qed.

Lemma quantize_saturates_witness :
  quantize Ref.libs (S754_infinity false) = xff /\
  quantize Ref.libs (f32_of_Z (-3)) = x00.
Proof.
  split.
  - apply (proj1 (quantize_saturates Ref.libs (S754_infinity false))). reflexivity.
  - apply (proj2 (quantize_saturates Ref.libs (f32_of_Z (-3)))). reflexivity.
Defined.

(** ** Fonts and measuring *)

(** The font [_load_font] returns is the built-in default or was loaded,
    at the requested size, from one of the candidate paths of the family. *)
Theorem load_font_sound (L : Libs) (fam : string) (size : Z) :
  _load_font L fam size = load_default L \/
  exists p, In p (_font_candidates L fam) /\
            truetype L p size = Some (_load_font L fam size).
Proof.
  unfold _load_font. generalize (_font_candidates L fam). intros paths.
  induction paths as [|p paths IH]; cbn [try_fonts]; [left; reflexivity|].
  destruct (truetype L p size) as [f|] eqn:Hp.
  - right. exists p. split; [left; reflexivity|exact Hp].
  - destruct IH as [IH|(q & Hq & Hl)]; [left; exact IH|].
    right. exists q. split; [right; exact Hq|exact Hl].
Qed.

(** A family other than "Arial" and "Monospace" has no paths of its own:
    on Linux its candidates are the two DejaVu files under the home
    directory, elsewhere there is none and the built-in font is returned
    without a single probe. *)
Theorem unknown_family_candidates (L : Libs) (fam : string) (size : Z) :
  fam <> "Arial"%string -> fam <> "Monospace"%string ->
  _font_candidates L fam =
    (if String.eqb (lower (platform_system L)) "linux"
     then [path_join (home_dir L) [".fonts"; "DejaVuSansMono.ttf"]%string;
           path_join (home_dir L)
                     [".local"; "share"; "fonts"; "DejaVuSansMono.ttf"]%string]
     else []) /\
  (lower (platform_system L) <> "linux"%string ->
   _load_font L fam size = load_default L).
Proof.
  intros Ha Hm. apply String.eqb_neq in Ha, Hm.
  assert (Hc : _font_candidates L fam =
    (if String.eqb (lower (platform_system L)) "linux"
     then [path_join (home_dir L) [".fonts"; "DejaVuSansMono.ttf"]%string;
           path_join (home_dir L)
                     [".local"; "share"; "fonts"; "DejaVuSansMono.ttf"]%string]
     else [])).
  { unfold _font_candidates. rewrite Ha, Hm.
    destruct (String.eqb (lower (platform_system L)) "linux"); reflexivity. }
  split; [exact Hc|].
  intros Hl. apply String.eqb_neq in Hl. unfold _load_font.
  rewrite Hc, Hl. reflexivity.
Qed.

Lemma unknown_family_candidates_witness :
  _font_candidates Ref.libs "Serif" =
    ["/root/.fonts/DejaVuSansMono.ttf";
     "/root/.local/share/fonts/DejaVuSansMono.ttf"]%string /\
  _load_font bare_libs "Serif" 12 = Ref.load_default.
Proof.
  split.
  - exact (proj1 (unknown_family_candidates Ref.libs "Serif" 12
                    ltac:(discriminate) ltac:(discriminate))).
  - apply (proj2 (unknown_family_candidates bare_libs "Serif" 12
                    ltac:(discriminate) ltac:(discriminate))).
    discriminate.
Defined.



(** ** Where the box goes *)

(** Whatever the placement string, a box that fits into the image together
    with the edge offset stays inside the image. *)
Theorem box_stays_inside (W H bw bh e : Z) (placement : string) :
  0 <= e -> bw + e <= W -> bh + e <= H ->
  0 <= (_place_xy W H bw bh placement e).1 /\
  (_place_xy W H bw bh placement e).1 + bw <= W /\
  0 <= (_place_xy W H bw bh placement e).2 /\
  (_place_xy W H bw bh placement e).2 + bh <= H.
Proof.
  intros He Hw Hh. unfold _place_xy.
  pose proof (Z.div_mod (W - bw) 2 ltac:(lia)).
  pose proof (Z.mod_pos_bound (W - bw) 2 ltac:(lia)).
  pose proof (Z.div_mod (H - bh) 2 ltac:(lia)).
  pose proof (Z.mod_pos_bound (H - bh) 2 ltac:(lia)).
  repeat match goal with
         | |- context [if ?c then _ else _] => destruct c
         end; cbn [fst snd]; lia.
Qed.

Lemma box_stays_inside_witness :
  0 <= (_place_xy 100 80 30 20 "bottom_right" 10).1 /\
  (_place_xy 100 80 30 20 "bottom_right" 10).1 + 30 <= 100 /\
  0 <= (_place_xy 100 80 30 20 "bottom_right" 10).2 /\
  (_place_xy 100 80 30 20 "bottom_right" 10).2 + 20 <= 80.
Proof.
  apply (box_stays_inside 100 80 30 20 10 "bottom_right"); lia.
Defined.

Lemma place_xy_unknown (W H bw bh e e' : Z) (placement : string) :
  placement <> "top_left"%string -> placement <> "top_right"%string ->
  placement <> "bottom_left"%string -> placement <> "bottom_right"%string ->
  _place_xy W H bw bh placement e = _place_xy W H bw bh "center" e'.
Proof.
  intros H1 H2 H3 H4. apply String.eqb_neq in H1, H2, H3, H4.
  unfold _place_xy. rewrite H1, H2, H3, H4. reflexivity.
Qed.

(** ** Options the node does not know, and options that do not matter *)

(** The loop body uses placement, offset, padding and radius only through
    the layout. *)
Lemma render_image_layout_ext (L : Libs) (f : font L) (text : string)
    (p p' : string) (e e' pad pad' cr cr' : Z) (tc bc : string) (t : image fpx) :
  image_layout L f text p e pad cr t = image_layout L f text p' e' pad' cr' t ->
  render_image L f text p e pad cr tc bc t
  = render_image L f text p' e' pad' cr' tc bc t.
Proof.
  intros Hg. unfold render_image. rewrite !label_image_layout.
  cbv zeta. rewrite Hg. reflexivity.
Qed.

Lemma add_label_with_ext (L : Libs) (f : font L) (image : tensor) (text : string)
    (p p' : string) (e e' : Z) (s : string) (pad pad' cr cr' : Z) :
  (forall t, image_layout L f text p e pad cr t
             = image_layout L f text p' e' pad' cr' t) ->
  add_label_with L f image text p e s pad cr
  = add_label_with L f image text p' e' s pad' cr'.
Proof.
  intros Hg. unfold add_label_with. destruct (scheme_colours s) as [tc bc].
  erewrite mapM_ext; [reflexivity|].
  intros t. apply render_image_layout_ext, Hg.
Qed.

(** Option strings the node does not know fall back: a placement that is
    none of "top_left", "top_right", "bottom_left", "bottom_right" is
    treated as "center" (and a centred label does not depend on the edge
    offset), and a colour scheme other than "white_on_black" is treated as
    "black_on_white". *)
Theorem unknown_options_fall_back (L : Libs) (image : tensor)
    (text fam : string) (size : Z) (placement : string) (e e' : Z) (s : string)
    (pad cr : Z) :
  (placement <> "top_left"%string -> placement <> "top_right"%string ->
   placement <> "bottom_left"%string -> placement <> "bottom_right"%string ->
   add_label L image text fam size placement e s pad cr
   = add_label L image text fam size "center" e' s pad cr) /\
  (s <> "white_on_black"%string ->
   add_label L image text fam size placement e s pad cr
   = add_label L image text fam size placement e "black_on_white" pad cr).
Proof.
  split.
  - intros H1 H2 H3 H4. unfold add_label. apply add_label_with_ext.
    intros t. unfold image_layout, label_layout.
    destruct (_text_bbox L text (_load_font L fam size)) as [[[l tp] r] b].
    rewrite (place_xy_unknown _ _ _ _ e e' placement H1 H2 H3 H4). reflexivity.
  - intros Hs. apply String.eqb_neq in Hs.
    unfold add_label, add_label_with, scheme_colours. rewrite Hs. reflexivity.
Qed.

Lemma unknown_options_fall_back_witness :
  add_label Ref.libs (Tensor3 (Ref.solid 12 10 (Ref.f1, Ref.f0, Ref.fhalf)))
            "HI" "Monospace" 4 "middle" 7 "black_on_white" 1 1
  = add_label Ref.libs (Tensor3 (Ref.solid 12 10 (Ref.f1, Ref.f0, Ref.fhalf)))
              "HI" "Monospace" 4 "center" 0 "black_on_white" 1 1 /\
  add_label Ref.libs (Tensor3 (Ref.solid 12 10 (Ref.f1, Ref.f0, Ref.fhalf)))
            "HI" "Monospace" 4 "center" 0 "sepia" 1 1
  = add_label Ref.libs (Tensor3 (Ref.solid 12 10 (Ref.f1, Ref.f0, Ref.fhalf)))
              "HI" "Monospace" 4 "center" 0 "black_on_white" 1 1.
Proof.
  split.
  - apply (proj1 (unknown_options_fall_back Ref.libs _ "HI" "Monospace" 4
                    "middle" 7 0 "black_on_white" 1 1)); discriminate.
  - apply (proj2 (unknown_options_fall_back Ref.libs _ "HI" "Monospace" 4
                    "center" 0 0 "sepia" 1 1)); discriminate.
Defined.

(** Corner radii at or above half the smaller side of the box all give the
    same result, and so do all radii at or below 0: beyond the cap and
    below zero the request does not matter. *)
Theorem corner_radius_saturates (L : Libs) (image : tensor)
    (text fam : string) (size : Z) (placement : string) (e : Z) (s : string)
    (pad cr cr' : Z) :
  (let '(l, tp, r, b) := _text_bbox L text (_load_font L fam size) in
   let half := Z.min (r - l + pad * 2) (b - tp + pad * 2) / 2 in
   (half <= cr /\ half <= cr') \/ (cr <= 0 /\ cr' <= 0)) ->
  add_label L image text fam size placement e s pad cr
  = add_label L image text fam size placement e s pad cr'.
Proof.
  intros Hc. unfold add_label. apply add_label_with_ext.
  intros t. unfold image_layout, label_layout.
  destruct (_text_bbox L text (_load_font L fam size)) as [[[l tp] r] b].
  cbv zeta in Hc.
  destruct (_place_xy _ _ _ _ placement e) as [x y].
  f_equal. lia.
Qed.

Lemma corner_radius_saturates_witness :
  add_label Ref.libs (Tensor3 (Ref.solid 12 10 (Ref.f1, Ref.f0, Ref.fhalf)))
            "HI" "Monospace" 4 "center" 0 "black_on_white" 1 3
  = add_label Ref.libs (Tensor3 (Ref.solid 12 10 (Ref.f1, Ref.f0, Ref.fhalf)))
              "HI" "Monospace" 4 "center" 0 "black_on_white" 1 128.
Proof.
  apply (corner_radius_saturates Ref.libs _ "HI" "Monospace" 4 "center" 0
           "black_on_white" 1 3 128).
  vm_compute. left. split; discriminate.
Defined.

(** ** Batches, image by image *)


(** Each image of a batch is labelled on its own: image [i] of the result
    is what the call returns for image [i] alone. *)
Theorem batch_is_labelled_image_by_image (L : Libs) (b out : batch)
    (text fam : string) (size : Z) (placement : string) (e : Z) (s : string)
    (pad cr : Z) (i : nat) (d : list fpx) :
  add_label L (Tensor4 b) text fam size placement e s pad cr = Some out ->
  batch_images b !! i = Some d ->
  exists o : list fpx,
    add_label L (Tensor3 (Image (batch_width b) (batch_height b) d))
              text fam size placement e s pad cr
      = Some (Batch (batch_height b) (batch_width b) [o]) /\
    batch_images out !! i = Some o.
Proof.
  intros Hout Hd. unfold add_label, add_label_with in *.
  destruct (scheme_colours s) as [tc bc].
  destruct (mapM _ (batch_items b)) as [outs|] eqn:Hm; [|discriminate].
  cbn [mbind option_bind] in Hout.
  apply torch_stack_images in Hout.
  pose proof (mapM_Some_1 _ _ _ Hm) as H2.
  assert (Hi : batch_items b !! i
               = Some (Image (batch_width b) (batch_height b) d)).
  { unfold batch_items. rewrite list_lookup_fmap, Hd. reflexivity. }
  destruct (Forall2_lookup_l _ _ _ _ _ H2 Hi) as (o & Ho & Hr).
  exists (pixels o). split.
  - unfold unsqueeze0, batch_items.
    cbn [batch_images batch_width batch_height width height pixels map mapM].
    rewrite Hr. cbn [mbind option_bind mret option_ret].
    apply render_image_shape in Hr. cbn [width height] in Hr.
    destruct Hr as [Hw Hh]. unfold torch_stack. cbn [forallb].
    rewrite !Nat.eqb_refl. cbn [andb map]. rewrite Hw, Hh. reflexivity.
  - rewrite Hout, list_lookup_fmap, Ho. reflexivity.
Qed.

Lemma batch_is_labelled_image_by_image_witness :
  exists (out : batch) (o : list fpx),
    add_label Ref.libs
      (Tensor4 (Batch 2 3 [replicate 6 (Ref.f1, Ref.f0, Ref.fhalf);
                           replicate 6 (Ref.f0, Ref.f0, Ref.f0)]))
      "HI" "Monospace" 4 "center" 0 "white_on_black" 1 1 = Some out /\
    add_label Ref.libs
      (Tensor3 (Image 3 2 (replicate 6 (Ref.f0, Ref.f0, Ref.f0))))
      "HI" "Monospace" 4 "center" 0 "white_on_black" 1 1
      = Some (Batch 2 3 [o]) /\
    batch_images out !! 1%nat = Some o.
Proof.
  destruct (add_label Ref.libs
      (Tensor4 (Batch 2 3 [replicate 6 (Ref.f1, Ref.f0, Ref.fhalf);
                           replicate 6 (Ref.f0, Ref.f0, Ref.f0)]))
      "HI" "Monospace" 4 "center" 0 "white_on_black" 1 1) as [out|] eqn:Hout;
    [|vm_compute in Hout; discriminate].
  destruct (batch_is_labelled_image_by_image Ref.libs _ out _ _ _ _ _ _ _ _
              1%nat (replicate 6 (Ref.f0, Ref.f0, Ref.f0)) Hout eq_refl)
    as (o & Hone & Hi).
  exists out, o. split; [reflexivity|]. split; [exact Hone|exact Hi].
Defined.

(** ** What the label does not touch *)

(** A pixel that the box does not cover and the text does not touch keeps
    the colour of the input, rounded to 8 bits; when the input colour is
    already an 8-bit value, the pixel is returned exactly. *)
Theorem pixel_outside_label_kept (L : Libs) (f : font L) (text placement : string)
    (e pad rad : Z) (s : string) (t o : image fpx) (x y : nat) (cr cg cb : f32) :
  composite_clear L -> paste_contract L -> image_wf t ->
  render_image L f text placement e pad rad
               (scheme_colours s).1 (scheme_colours s).2 t = Some o ->
  pixel_at t x y = Some (cr, cg, cb) ->
  (let '(x0, y0, x1, y1) :=
     box_rect (image_layout L f text placement e pad rad t) in
   rr_cover L x0 y0 x1 y1
     (radius (image_layout L f text placement e pad rad t))
     (Z.of_nat x) (Z.of_nat y)) = false ->
  text_mask L f text
    (Z.of_nat x - text_x (image_layout L f text placement e pad rad t))
    (Z.of_nat y - text_y (image_layout L f text placement e pad rad t)) = x00 ->
  pixel_at o x y = Some (dequantize (quantize L cr), dequantize (quantize L cg),
                         dequantize (quantize L cb)) /\
  (forall br bg bb : u8,
      (cr, cg, cb) = (dequantize br, dequantize bg, dequantize bb) ->
      pixel_at o x y = Some (cr, cg, cb)).
Proof.
  intros Hclear Hpaste Hwf Hrender Hp Hcov Hmask.
  destruct (render_image_pixel_at L f text placement e pad rad _ _ t o x y Hrender)
    as (base & Hl & Ho).
  pose proof (scheme_fills s) as Hfills.
  destruct (scheme_colours s) as [tc bc]. cbn [fst snd] in *.
  destruct Hfills as (tr & tg & tb & br & bg & bb & Ht & Hb & _).
  pose proof (label_image_pixel_at L f text placement e pad rad _ _ t base
                _ _ x y cr cg cb Hwf Hb Ht Hl Hp) as Hbase.
  cbv zeta in Hbase. rewrite Hmask in Hbase.
  destruct (box_rect (image_layout L f text placement e pad rad t))
    as [[[x0 y0] x1] y1].
  rewrite Hcov in Hbase. cbv iota in Hbase.
  rewrite (proj1 (Hpaste _ _)) in Hbase.
  assert (Hbase' : pixel_at base x y
                   = Some (quantize L cr, quantize L cg, quantize L cb, xff))
    by (rewrite Hbase; f_equal; apply Hclear).
  assert (Hout : pixel_at o x y
                 = Some (dequantize (quantize L cr), dequantize (quantize L cg),
                         dequantize (quantize L cb)))
    by (rewrite Ho, Hbase'; reflexivity).
  split; [exact Hout|].
  intros br' bg' bb' [= -> -> ->]. rewrite Hout, !quantize_dequantize. reflexivity.
Qed.

Lemma composite_clear_ref : composite_clear Ref.libs.
Proof. intros [[[dr dg] db] da]. reflexivity. Qed.

Lemma pixel_outside_label_kept_witness :
  exists o,
    render_image Ref.libs 4 "HI" "top_left" 1 2 1 "#000000" "#FFFFFF"
                 (Ref.solid 12 10 (Ref.f1, Ref.f0, Ref.fhalf)) = Some o /\
    pixel_at o 11 9 = Some (dequantize xff, dequantize x00, dequantize x80).
Proof.
  destruct (render_image Ref.libs 4 "HI" "top_left" 1 2 1 "#000000" "#FFFFFF"
              (Ref.solid 12 10 (Ref.f1, Ref.f0, Ref.fhalf))) as [o|] eqn:Ho;
    [|vm_compute in Ho; discriminate].
  exists o. split; [reflexivity|].
  exact (proj1 (pixel_outside_label_kept Ref.libs 4 "HI" "top_left" 1 2 1
                  "black_on_white" (Ref.solid 12 10 (Ref.f1, Ref.f0, Ref.fhalf)) o
                  11 9 Ref.f1 Ref.f0 Ref.fhalf
                  composite_clear_ref RefFacts.paste_ok eq_refl Ho eq_refl
                  eq_refl eq_refl)).
Defined.

(** ** The interface and the code *)

(** Every optional input's default is one the host accepts, and it is the
    default that [add_label] has in its own signature, input by input and
    in the same order. *)
Theorem schema_defaults_agree :
  Forall (fun kv => default_admissible kv.2) INPUT_TYPES_optional /\
  map (fun kv => (kv.1, schema_default kv.2)) INPUT_TYPES_optional
  = map (fun kv => (kv.1, Some kv.2)) add_label_defaults.
Proof.
  split; [|reflexivity].
  repeat constructor; cbn; auto 10; lia.
Qed.

(** Within the ranges the host enforces for padding and corner radius, a
    measured text box (right >= left, bottom >= top) always gives a proper
    rectangle to draw: its second corner is not before its first, and the
    radius lies between 0 and 128 and is not above the request. *)
Theorem schema_ranges_give_a_box (W H l tp r b : Z) (placement : string)
    (e pad cr : Z) :
  int_in_range "padding" pad -> int_in_range "corner_radius" cr ->
  l <= r -> tp <= b ->
  (let '(x0, y0, x1, y1) :=
     box_rect (label_layout W H (l, tp, r, b) placement e pad cr) in
   x0 <= x1 /\ y0 <= y1) /\
  0 <= radius (label_layout W H (l, tp, r, b) placement e pad cr) <= 128 /\
  radius (label_layout W H (l, tp, r, b) placement e pad cr) <= cr.
Proof.
  intros Hpad Hcr Hlr Htb.
  change (0 <= pad <= 256) in Hpad. change (0 <= cr <= 128) in Hcr.
  pose proof (label_layout_box W H l tp r b placement e pad cr)
    as (Hw & Hh & _ & Hr).
  cbv zeta in Hw, Hh, Hr.
  set (g := label_layout W H (l, tp, r, b) placement e pad cr) in *.
  unfold box_rect. rewrite Hr.
  pose proof (Z.div_mod (Z.min (box_w g) (box_h g)) 2 ltac:(lia)).
  pose proof (Z.mod_pos_bound (Z.min (box_w g) (box_h g)) 2 ltac:(lia)).
  repeat split; lia.
Qed.

Lemma schema_ranges_give_a_box_witness :
  0 <= radius (label_layout 100 100 (1, 2, 31, 12) "center" 30 256 128) <= 128 /\
  radius (label_layout 100 100 (1, 2, 31, 12) "center" 30 256 128) <= 128.
Proof.
  apply (schema_ranges_give_a_box 100 100 1 2 31 12 "center" 30 256 128);
    vm_compute; try split; discriminate.
Defined.

(** ** The store run, as an instance *)


(** ** Complete buffers *)

Lemma label_image_wf (L : Libs) (f : font L) (text placement : string)
    (e pad cr : Z) (tc bc : string) (t : image fpx) (base : image rgba) :
  image_wf t ->
  label_image L f text placement e pad cr tc bc t = Some base ->
  image_wf base.
Proof.
  unfold image_wf, label_image. intros Hwf.
  destruct (_rgba bc (1 # 2)) as [bg|]; [|discriminate].
  cbn [mbind option_bind]. rewrite alpha_composite_overlay.
  cbn [mbind option_bind].
  destruct (_rgba tc 1) as [fg|]; [|discriminate].
  cbn [mbind option_bind]. intros [= <-].
  unfold draw_text, pmapi, box_overlay, rounded_rectangle, box_rect.
  cbn [pixels width height convert_RGBA _tensor_to_pil pmap pmapi Image_new].
  rewrite length_imap, length_zip_with_l_eq.
  - rewrite !length_map. exact Hwf.
  - rewrite length_imap, length_replicate, !length_map. exact Hwf.
Qed.

(** When every image of the input holds height x width pixels, so does
    every image of the result, for the same height and width: the call
    returns a complete tensor of the input's shape. *)
Theorem add_label_returns_complete_images (L : Libs) (image : tensor) (out : batch)
    (text fam : string) (size : Z) (placement : string) (e : Z) (s : string)
    (pad cr : Z) :
  add_label L image text fam size placement e s pad cr = Some out ->
  Forall (fun d => length d
                   = (batch_height (as_batch image) * batch_width (as_batch image))%nat)
         (batch_images (as_batch image)) ->
  batch_height out = batch_height (as_batch image) /\
  batch_width out = batch_width (as_batch image) /\
  Forall (fun d => length d = (batch_height out * batch_width out)%nat)
         (batch_images out).
Proof.
  intros Hout Hwf. unfold add_label, add_label_with in Hout.
  change (match image with Tensor3 im => unsqueeze0 im | Tensor4 b => b end)
    with (as_batch image) in Hout.
  set (b := as_batch image) in *.
  destruct (scheme_colours s) as [tc bc].
  destruct (mapM _ (batch_items b)) as [outs|] eqn:Hm; [|discriminate].
  cbn [mbind option_bind] in Hout.
  pose proof (mapM_Some_1 _ _ _ Hm) as H2.
  assert (Houts : Forall (fun o => width o = batch_width b /\
                                   height o = batch_height b /\ image_wf o) outs).
  { apply Forall_forall. intros o Ho.
    apply list_elem_of_lookup in Ho. destruct Ho as [i Ho].
    destruct (Forall2_lookup_r _ _ _ _ _ H2 Ho) as (t & Ht & Hr).
    unfold batch_items in Ht. rewrite list_lookup_fmap in Ht.
    destruct (batch_images b !! i) as [d|] eqn:Hd; [|discriminate].
    injection Ht as <-.
    pose proof (render_image_shape L _ _ _ _ _ _ _ _ _ _ Hr) as [Hw Hh].
    cbn [width height] in Hw, Hh. split; [exact Hw|]. split; [exact Hh|].
    unfold render_image in Hr.
    destruct (label_image _ _ _ _ _ _ _ _ _ _) as [base|] eqn:Hl; [|discriminate].
    cbn [mbind option_bind] in Hr. injection Hr as <-.
    apply label_image_wf in Hl.
    - unfold image_wf in *. unfold _pil_to_tensor, convert_RGB, pmap.
      cbn [pixels width height]. rewrite !length_map. exact Hl.
    - unfold image_wf. cbn [pixels width height].
      rewrite Forall_forall in Hwf. apply Hwf.
      apply list_elem_of_lookup. exists i. exact Hd. }
  unfold torch_stack in Hout. destruct outs as [|o outs']; [discriminate|].
  destruct (forallb _ _); [|discriminate]. injection Hout as <-.
  cbn [batch_height batch_width batch_images].
  pose proof Houts as Hall. rewrite Forall_forall in Hall.
  destruct (Hall o ltac:(left)) as (Hw & Hh & _).
  split; [exact Hh|]. split; [exact Hw|].
  change (pixels o :: map pixels outs') with (map pixels (o :: outs')).
  apply List.Forall_map. eapply Forall_impl; [exact Houts|].
  intros o' (Hw' & Hh' & Hwf'). unfold image_wf in Hwf'. cbn.
  rewrite Hwf'. congruence.
Qed.

Lemma add_label_returns_complete_images_witness :
  exists out,
    add_label Ref.libs (Tensor3 (Ref.solid 12 10 (Ref.f1, Ref.f0, Ref.fhalf)))
              "HI" "Monospace" 4 "center" 0 "black_on_white" 1 1 = Some out /\
    batch_height out = 10%nat /\ batch_width out = 12%nat /\
    Forall (fun d => length d = (batch_height out * batch_width out)%nat)
           (batch_images out).
Proof.
  destruct (add_label Ref.libs (Tensor3 (Ref.solid 12 10 (Ref.f1, Ref.f0, Ref.fhalf)))
              "HI" "Monospace" 4 "center" 0 "black_on_white" 1 1)
    as [out|] eqn:Hout; [|vm_compute in Hout; discriminate].
  exists out. split; [reflexivity|].
  apply (add_label_returns_complete_images _ _ _ _ _ _ _ _ _ _ _ Hout).
  repeat constructor.
Defined.

(** ** Placement only moves the label *)

